(** * nRF52 RAM retention utilities: a shallow embedding and its properties

    The development follows [src/ram_retention/ram_retention_utils.c]:
    - [ram_range_retain]: the section walk that turns a byte range into
      RAM-retention register writes;
    - [ram_retained_validate] and [ram_retained_update]: the CRC residue
      protocol on a retained record.

    Machine integers ([uintptr_t], [size_t], [uint32_t] are 32 bits wide on
    the Cortex-M4 of the nRF52; [uint8_t] is 8 bits wide) are values of [Z]
    with their wrap-around written out. *)

From Stdlib Require Import ZArith List Bool Lia Sorted.
From Stdlib.Strings Require Import Byte.
Import ListNotations.

Local Open Scope Z_scope.

(* ------------------------------------------------------------------ *)
(** ** Machine arithmetic *)

Definition wrap32 (x : Z) : Z := x mod 2 ^ 32.
Definition wrap8 (x : Z) : Z := x mod 2 ^ 8.

(** The value of a byte as an unsigned integer, and the [uint8_t]
    truncation of an integer. *)
Definition byte_val (b : byte) : Z := Z.of_N (Byte.to_N b).

Definition byte_of_Z (z : Z) : byte :=
  match Byte.of_N (Z.to_N (z mod 256)) with
  | Some b => b
  | None => x00
  end.

(* ------------------------------------------------------------------ *)
(** ** Outcomes

    A C call either returns, or touches memory outside the object it was
    handed (undefined behaviour), or is still looping when the model's
    fuel is used up. *)

Inductive outcome (A : Type) : Type :=
| Done (a : A)
| Undefined
| OutOfFuel.

Arguments Done {A} a.
Arguments Undefined {A}.
Arguments OutOfFuel {A}.

Definition bind {A B : Type} (m : outcome A) (k : A -> outcome B) : outcome B :=
  match m with
  | Done a => k a
  | Undefined => Undefined
  | OutOfFuel => OutOfFuel
  end.

Notation "x <- m ;; k" := (bind m (fun x => k))
  (at level 61, m at next level, right associativity).

(* ------------------------------------------------------------------ *)
(** ** CRC-32 *)

Module CRC.

(** The reflected form of the generator polynomial 0x04C11DB7. *)
Definition POLY : Z := 0xEDB88320.

(** One bit of the reflected shift register. *)
Definition crc_shift (r : Z) : Z :=
  Z.lxor (Z.shiftr r 1) (if Z.odd r then POLY else 0).

(** One message byte: xor it into the low end, then eight shifts. *)
Definition crc_byte (r : Z) (b : byte) : Z :=
  Nat.iter 8 crc_shift (Z.lxor r (byte_val b)).

Definition lnot32 (x : Z) : Z := Z.lxor x 0xFFFFFFFF.

(** Modelled from the spec: [crc32_ieee_update] and [crc32_ieee] belong to
    Zephyr's <zephyr/sys/crc.h>, which is not part of the sources.  The
    interface section of the specification fixes the function as
    CRC-32/ISO-HDLC: polynomial 0x04C11DB7, reflected, initial value
    0xFFFFFFFF, final xor 0xFFFFFFFF. *)
Definition crc32_ieee_update (crc : Z) (data : list byte) : Z :=
  lnot32 (fold_left crc_byte data (lnot32 crc)).

Definition crc32_ieee (data : list byte) : Z := crc32_ieee_update 0 data.

End CRC.

(* ------------------------------------------------------------------ *)
(** ** The platform

    The devicetree node [sram0] and the retention bit-field constants of
    the vendor's register header are not part of the sources; they are
    parameters of the model. *)

Record platform : Type := {
  (** [DT_REG_ADDR(DT_NODELABEL(sram0))] *)
  dt_sram0_addr : Z;
  (** [DT_REG_SIZE(DT_NODELABEL(sram0))] *)
  dt_sram0_size : Z;
  POWER_RAM_POWERSET_S0RETENTION_On : Z;
  POWER_RAM_POWERSET_S0RETENTION_Pos : Z
}.

(** The nRF52840: 256 KiB of RAM at 0x20000000; S0RETENTION is bit 16. *)
Definition nrf52840 : platform := {|
  dt_sram0_addr := 0x20000000;
  dt_sram0_size := 0x40000;
  POWER_RAM_POWERSET_S0RETENTION_On := 1;
  POWER_RAM_POWERSET_S0RETENTION_Pos := 16
|}.

Definition SRAM_BEGIN (p : platform) : Z := dt_sram0_addr p.
Definition SRAM_END (p : platform) : Z := wrap32 (SRAM_BEGIN p + dt_sram0_size p).
Definition SMALL_SECTION_SIZE : Z := 4096.
Definition SMALL_SECTIONS_PER_BLOCK : Z := 2.
Definition SMALL_BLOCK_SIZE : Z := SMALL_SECTIONS_PER_BLOCK * SMALL_SECTION_SIZE.
Definition SMALL_BLOCK_COUNT : Z := 8.
Definition SMALL_SECTION_SPAN : Z := SMALL_BLOCK_COUNT * SMALL_BLOCK_SIZE.
Definition LARGE_SECTION_BEGIN (p : platform) : Z :=
  wrap32 (SRAM_BEGIN p + SMALL_SECTION_SPAN).
Definition LARGE_SECTION_SIZE : Z := 32768.

Definition EINVAL : Z := 22.

(** The platforms the results are stated for: the RAM and the first large
    section boundary lie in the 32-bit address space, with one large
    section of room above the RAM. *)
Definition platform_ok (p : platform) : Prop :=
  0 <= dt_sram0_addr p /\
  0 <= dt_sram0_size p /\
  dt_sram0_addr p + dt_sram0_size p + LARGE_SECTION_SIZE <= 2 ^ 32 /\
  dt_sram0_addr p + SMALL_SECTION_SPAN < 2 ^ 32.

(** The RAM starts on a large-section boundary, so that sections counted
    from the block base and sections of the absolute address agree. *)
Definition platform_aligned (p : platform) : Prop :=
  dt_sram0_addr p mod LARGE_SECTION_SIZE = 0.

(* ------------------------------------------------------------------ *)
(** ** RAM retention of an address range *)

(** The calls into the POWER peripheral, in the order they are made. *)
Inductive hw_call : Type :=
| nrf_power_rampower_mask_on (block : Z) (section_mask : Z)
| nrf_power_rampower_mask_off (block : Z) (section_mask : Z).

Definition rampower_call (enable : bool) (block section_mask : Z) : hw_call :=
  if enable then nrf_power_rampower_mask_on block section_mask
  else nrf_power_rampower_mask_off block section_mask.

Definition call_args (c : hw_call) : Z * Z :=
  match c with
  | nrf_power_rampower_mask_on b m => (b, m)
  | nrf_power_rampower_mask_off b m => (b, m)
  end.

Definition is_mask_on (c : hw_call) : bool :=
  match c with
  | nrf_power_rampower_mask_on _ _ => true
  | nrf_power_rampower_mask_off _ _ => false
  end.

(** The locals set up at the top of the loop body:
    [(block, block_base, section_size, sections_per_block)]. *)
Definition section_geometry (p : platform) (addr : Z) : Z * Z * Z * Z :=
  let is_large := LARGE_SECTION_BEGIN p <=? addr in
  if is_large
  then (8, LARGE_SECTION_BEGIN p, LARGE_SECTION_SIZE, 16)
  else (0, SRAM_BEGIN p, SMALL_SECTION_SIZE, SMALL_SECTIONS_PER_BLOCK).

(** The block index and the section mask handed to the POWER peripheral
    for the section holding [addr]. *)
Definition section_of_addr (p : platform) (addr : Z) : Z * Z :=
  let '(block, block_base, section_size, sections_per_block) :=
    section_geometry p addr in
  let section := wrap32 (addr - block_base) / section_size in
  let '(block, section) :=
    if sections_per_block <=? section
    then (wrap8 (block + section / sections_per_block),
          section mod sections_per_block)
    else (block, section) in
  let section_mask :=
    wrap32 (Z.shiftl (POWER_RAM_POWERSET_S0RETENTION_On p)
                     (section + POWER_RAM_POWERSET_S0RETENTION_Pos p)) in
  (block, section_mask).

(** [addr += section_size - (addr % section_size)] *)
Definition next_section_addr (p : platform) (addr : Z) : Z :=
  let '(_, _, section_size, _) := section_geometry p addr in
  wrap32 (addr + wrap32 (section_size - addr mod section_size)).

(** The [do ... while (addr < addr_end)] loop; [None] when the fuel runs
    out before the loop exits. *)
Fixpoint ram_range_retain_loop (p : platform) (fuel : nat)
    (addr addr_end : Z) (enable : bool) : option (list hw_call) :=
  match fuel with
  | O => None
  | S fuel' =>
      let '(block, section_mask) := section_of_addr p addr in
      let call := rampower_call enable block section_mask in
      let addr := next_section_addr p addr in
      if addr <? addr_end
      then option_map (cons call)
             (ram_range_retain_loop p fuel' addr addr_end enable)
      else Some [call]
  end.

(** [ram_range_retain(ptr, len, enable)]: the return value and the calls
    made; [None] when the fuel runs out. *)
Definition ram_range_retain (p : platform) (fuel : nat)
    (ptr len : Z) (enable : bool) : option (Z * list hw_call) :=
  let addr := ptr in
  let addr_end := wrap32 (addr + len) in
  if (len =? 0) || (addr <? SRAM_BEGIN p) || (wrap32 (SRAM_END p - len) <? addr)
  then Some (- EINVAL, [])
  else option_map (fun calls => (0, calls))
         (ram_range_retain_loop p fuel addr addr_end enable).

(* ------------------------------------------------------------------ *)
(** ** The RAM layout, section by section

    The layout as the comment at the head of the source describes it:
    eight blocks of two 4 KiB sections, then blocks of sixteen 32 KiB
    sections.  Sections are numbered through from the start of the RAM;
    the definitions below are the reference [ram_range_retain] is compared
    with, they are not taken from its body. *)

Module Layout.

(** The number of the section holding [addr]. *)
Definition section_index (p : platform) (addr : Z) : Z :=
  if addr <? SRAM_BEGIN p + SMALL_SECTION_SPAN
  then (addr - SRAM_BEGIN p) / SMALL_SECTION_SIZE
  else 16 + (addr - (SRAM_BEGIN p + SMALL_SECTION_SPAN)) / LARGE_SECTION_SIZE.

(** The first address of section [k]. *)
Definition section_start (p : platform) (k : Z) : Z :=
  if k <? 16
  then SRAM_BEGIN p + SMALL_SECTION_SIZE * k
  else SRAM_BEGIN p + SMALL_SECTION_SPAN + LARGE_SECTION_SIZE * (k - 16).

(** The block of section [k], as the [uint8_t] index handed to the
    peripheral, and its position inside the block. *)
Definition section_block (k : Z) : Z :=
  if k <? 16 then k / 2 else wrap8 (8 + (k - 16) / 16).

Definition section_bit (k : Z) : Z :=
  if k <? 16 then k mod 2 else (k - 16) mod 16.

(** The retention bit of section [k] in its block's register. *)
Definition section_mask (p : platform) (k : Z) : Z :=
  wrap32 (Z.shiftl (POWER_RAM_POWERSET_S0RETENTION_On p)
                   (section_bit k + POWER_RAM_POWERSET_S0RETENTION_Pos p)).

Definition section_call (p : platform) (enable : bool) (k : Z) : hw_call :=
  rampower_call enable (section_block k) (section_mask p k).

(** [n] consecutive integers from [from]. *)
Fixpoint Zseq (from : Z) (n : nat) : list Z :=
  match n with
  | O => []
  | S n' => from :: Zseq (from + 1) n'
  end.

(** The sections that the bytes [ptr .. ptr + len - 1] lie in, in address
    order. *)
Definition sections_touched (p : platform) (ptr len : Z) : list Z :=
  Zseq (section_index p ptr)
       (Z.to_nat (section_index p (ptr + len - 1) - section_index p ptr + 1)).

End Layout.

(* ------------------------------------------------------------------ *)
(** ** Retained records

    [mem] is the object the pointer argument points to, byte by byte;
    reading or writing past its end is undefined. *)

Definition residue : Z := 0x2144df1c.

(** [memset(ptr, 0, n)] *)
Definition memset0 (mem : list byte) (n : Z) : outcome (list byte) :=
  if (n <? 0) || (Z.of_nat (length mem) <? n) then Undefined
  else Done (repeat x00 (Z.to_nat n) ++ skipn (Z.to_nat n) mem).

(** The first [n] bytes of the object, as [crc32_ieee] reads them. *)
Definition read_bytes (mem : list byte) (n : Z) : outcome (list byte) :=
  if (n <? 0) || (Z.of_nat (length mem) <? n) then Undefined
  else Done (firstn (Z.to_nat n) mem).

(** The four bytes of a [uint32_t] in little-endian order. *)
Definition le32_bytes (v : Z) : list byte :=
  [byte_of_Z v; byte_of_Z (Z.shiftr v 8);
   byte_of_Z (Z.shiftr v 16); byte_of_Z (Z.shiftr v 24)].

(** The [uint32_t] that a little-endian CPU reads back from a list of
    bytes, lowest byte first. *)
Definition le32_decode (bs : list byte) : Z :=
  fold_right (fun b acc => byte_val b + 256 * acc) 0 bs.

(** The 32-bit store of [sys_cpu_to_le32(v)] at byte offset [off]:
    whatever the byte order of the CPU, the bytes in memory are
    little-endian. *)
Definition store_le32 (mem : list byte) (off v : Z) : outcome (list byte) :=
  if (off <? 0) || (Z.of_nat (length mem) <? off + 4) then Undefined
  else Done (firstn (Z.to_nat off) mem ++ le32_bytes v
             ++ skipn (Z.to_nat off + 4) mem).

(** What [ram_retained_validate] leaves behind: its return value, the
    record's bytes, and the calls made into the POWER peripheral. *)
Record validated : Type := {
  valid : bool;
  record_bytes : list byte;
  retention_calls : list hw_call
}.

Definition ram_retained_validate (p : platform) (fuel : nat) (mem : list byte)
    (a_retained_var_ptr a_retained_var_size
     a_retained_crc_offset a_sizeof_retained_crc : Z) : outcome validated :=
  let retained_checked_size :=
    wrap32 (a_retained_crc_offset + a_sizeof_retained_crc) in
  data <- read_bytes mem retained_checked_size ;;
  let crc := CRC.crc32_ieee data in
  let valid := crc =? residue in
  mem <- (if negb valid then memset0 mem a_retained_var_size else Done mem) ;;
  match ram_range_retain p fuel a_retained_var_ptr retained_checked_size true with
  | None => OutOfFuel
  | Some (_, calls) => Done {| valid := valid; record_bytes := mem;
                               retention_calls := calls |}
  end.

Definition RR_Init_Variable_Ram_Retention (p : platform) (fuel : nat)
    (mem : list byte)
    (a_retained_var_ptr a_retained_var_size
     a_retained_crc_offset a_sizeof_retained_crc : Z) : outcome validated :=
  ram_retained_validate p fuel mem a_retained_var_ptr a_retained_var_size
    a_retained_crc_offset a_sizeof_retained_crc.

Definition ram_retained_update (mem : list byte) (a_retained_crc_offset : Z)
  : outcome (list byte) :=
  data <- read_bytes mem a_retained_crc_offset ;;
  let crc := CRC.crc32_ieee data in
  store_le32 mem a_retained_crc_offset crc.

(** [RR_Var_Ram_Retain] of the header. *)
Definition RR_Var_Ram_Retain (mem : list byte) (a_retained_crc_offset : Z)
  : outcome (list byte) :=
  ram_retained_update mem a_retained_crc_offset.

(** [update] directly followed by [validate] on the same record. *)
Definition update_then_validate (p : platform) (fuel : nat) (mem : list byte)
    (ptr size off : Z) : outcome (list byte * validated) :=
  mem1 <- ram_retained_update mem off ;;
  v <- ram_retained_validate p fuel mem1 ptr size off 4 ;;
  Done (mem1, v).

(** [validate] twice in a row on the same record. *)
Definition validate_twice (p : platform) (fuel : nat) (mem : list byte)
    (ptr size off : Z) : outcome (validated * validated) :=
  v1 <- ram_retained_validate p fuel mem ptr size off 4 ;;
  v2 <- ram_retained_validate p fuel (record_bytes v1) ptr size off 4 ;;
  Done (v1, v2).

(* ------------------------------------------------------------------ *)
(** ** The macros of the header

    A retained variable is declared with [RamRetTypeDeclare]: a struct of
    the value [rr_var] followed by [uint32_t crc].  The macros below take
    the variable's type and name and pass [sizeof] and [offsetof] on; what
    the compiler makes of those is a parameter here. *)

Record rr_layout : Type := {
  (** [sizeof(rr_var_name)] *)
  rr_sizeof : Z;
  (** [offsetof(rr_var_type, crc)] *)
  rr_crc_offset : Z
}.

(** The [crc] member, four bytes wide, lies inside the struct. *)
Definition rr_layout_ok (l : rr_layout) : Prop :=
  0 <= rr_crc_offset l /\ rr_crc_offset l + 4 <= rr_sizeof l.

(** [RR_Var_Ram_Ret_Init(rr_var_type, rr_var_name)]; [sizeof] of the
    [crc] member is 4. *)
Definition RR_Var_Ram_Ret_Init (p : platform) (fuel : nat) (l : rr_layout)
    (mem : list byte) (rr_var_addr : Z) : outcome validated :=
  ram_retained_validate p fuel mem rr_var_addr (rr_sizeof l) (rr_crc_offset l) 4.

(** [RR_Var_Ram_Ret(rr_var_type, rr_var_addr)] *)
Definition RR_Var_Ram_Ret (l : rr_layout) (mem : list byte)
  : outcome (list byte) :=
  RR_Var_Ram_Retain mem (rr_crc_offset l).

(** An assignment by the application to the bytes in front of the
    checksum, such as [atomic_inc(&g_cnt.rr_var)] in [main]: [f] gives the
    new bytes from the old. *)
Definition write_rr_var (f : list byte -> list byte) (l : rr_layout)
    (mem : list byte) : list byte :=
  f (firstn (Z.to_nat (rr_crc_offset l)) mem)
  ++ skipn (Z.to_nat (rr_crc_offset l)) mem.

(** The way [main] uses a retained variable: each change of the value is
    followed by [RR_Var_Ram_Ret]. *)
Fixpoint retain_rounds (l : rr_layout) (fs : list (list byte -> list byte))
    (mem : list byte) : outcome (list byte) :=
  match fs with
  | [] => Done mem
  | f :: fs' =>
      mem' <- RR_Var_Ram_Ret l (write_rr_var f l mem) ;;
      retain_rounds l fs' mem'
  end.

(** One power cycle of a retained variable: initialisation, rounds of
    change and [RR_Var_Ram_Ret], then, with the bytes kept through System
    OFF, the initialisation of the next start. *)
Definition retained_power_cycle (p : platform) (fuel : nat) (l : rr_layout)
    (rr_var_addr : Z) (fs : list (list byte -> list byte)) (mem : list byte)
  : outcome (validated * list byte * validated) :=
  v0 <- RR_Var_Ram_Ret_Init p fuel l mem rr_var_addr ;;
  mem' <- retain_rounds l fs (record_bytes v0) ;;
  v1 <- RR_Var_Ram_Ret_Init p fuel l mem' rr_var_addr ;;
  Done (v0, mem', v1).

(* ------------------------------------------------------------------ *)
(** ** Proof automation *)

(** Equalities between xor and and expressions, bit by bit. *)
Ltac bitwise :=
  apply Z.bits_inj'; intros ?i ?Hi;
  repeat first [ rewrite Z.lxor_spec | rewrite Z.land_spec | rewrite Z.bits_0 ];
  repeat match goal with
         | |- context [Z.testbit ?a ?n] => destruct (Z.testbit a n)
         end;
  reflexivity.

(** The layout constants as numbers. *)
Ltac unfold_consts :=
  unfold SMALL_SECTION_SPAN, SMALL_BLOCK_COUNT, SMALL_BLOCK_SIZE,
    SMALL_SECTIONS_PER_BLOCK, SMALL_SECTION_SIZE, LARGE_SECTION_SIZE, EINVAL in *.

(** Arithmetic of section numbers: case analysis on the region, then
    linear arithmetic over the quotients and remainders. *)
Ltac layout_arith :=
  unfold Layout.section_index, Layout.section_start, Layout.section_block,
    Layout.section_bit, wrap8,
    platform_aligned, SRAM_BEGIN in *;
  unfold_consts; change (2 ^ 8) with 256 in *;
  repeat match goal with
         | |- context [?a <? ?b] => destruct (Z.ltb_spec a b)
         | |- context [?a <=? ?b] => destruct (Z.leb_spec a b)
         end;
  Z.div_mod_to_equations; lia.

(* ------------------------------------------------------------------ *)
(** * Properties *)

(** ** Bytes *)

Lemma byte_val_range (b : byte) : 0 <= byte_val b < 256.
Proof.
  unfold byte_val. pose proof (Byte.to_N_bounded b). lia.
Qed.

Lemma byte_val_of_Z (z : Z) : byte_val (byte_of_Z z) = z mod 256.
Proof.
  unfold byte_of_Z, byte_val.
  assert (Hr : 0 <= z mod 256 < 256) by (apply Z.mod_pos_bound; lia).
  destruct (Byte.of_N (Z.to_N (z mod 256))) as [b|] eqn:E.
  - apply Byte.to_of_N in E. rewrite E. lia.
  - apply Byte.of_N_None_iff in E. lia.
Qed.

(** ** Bitwise reasoning *)

Lemma lxor_range (n a b : Z) :
  0 <= n -> 0 <= a < 2 ^ n -> 0 <= b < 2 ^ n -> 0 <= Z.lxor a b < 2 ^ n.
Proof.
  intros Hn Ha Hb.
  assert (H0 : 0 <= Z.lxor a b) by (apply Z.lxor_nonneg; lia).
  split; [exact H0|].
  assert (Hs : Z.shiftr (Z.lxor a b) n = 0).
  { rewrite Z.shiftr_lxor, !Z.shiftr_div_pow2 by exact Hn.
    rewrite (Z.div_small a), (Z.div_small b) by lia. reflexivity. }
  rewrite Z.shiftr_div_pow2 in Hs by exact Hn.
  apply Z.div_small_iff in Hs; lia.
Qed.

Module CRCFacts.
Import CRC.

Lemma crc_shift_lxor (x y : Z) :
  crc_shift (Z.lxor x y) = Z.lxor (crc_shift x) (crc_shift y).
Proof.
  unfold crc_shift. rewrite Z.shiftr_lxor, <- !Z.bit0_odd, Z.lxor_spec.
  destruct (Z.testbit x 0), (Z.testbit y 0); cbn [xorb]; bitwise.
Qed.

Lemma iter_crc_shift_lxor (n : nat) (x y : Z) :
  Nat.iter n crc_shift (Z.lxor x y) =
  Z.lxor (Nat.iter n crc_shift x) (Nat.iter n crc_shift y).
Proof.
  induction n as [|n IH]; [reflexivity|].
  rewrite !Nat.iter_succ, IH. apply crc_shift_lxor.
Qed.

Lemma crc_shift_shiftl_1 (z : Z) : crc_shift (Z.shiftl z 1) = z.
Proof.
  unfold crc_shift.
  rewrite <- Z.bit0_odd, Z.shiftl_spec_low by lia.
  rewrite Z.shiftr_shiftl_l by lia. cbn [Z.sub Z.add Z.opp Z.pos_sub].
  rewrite Z.shiftl_0_r. apply Z.lxor_0_r.
Qed.

Lemma iter_crc_shift_shiftl (n : nat) (z : Z) :
  Nat.iter n crc_shift (Z.shiftl z (Z.of_nat n)) = z.
Proof.
  revert z. induction n as [|n IH]; intro z.
  - cbn. apply Z.shiftl_0_r.
  - rewrite Nat.iter_succ.
    replace (Z.shiftl z (Z.of_nat (S n)))
      with (Z.shiftl (Z.shiftl z 1) (Z.of_nat n))
      by (rewrite Z.shiftl_shiftl by lia; f_equal; lia).
    rewrite IH. apply crc_shift_shiftl_1.
Qed.

Lemma clear_low_byte (x : Z) :
  Z.lxor x (Z.land x 255) = Z.shiftl (Z.shiftr x 8) 8.
Proof.
  apply Z.bits_inj'; intros i Hi.
  rewrite Z.lxor_spec, Z.land_spec, Z.shiftl_spec by exact Hi.
  change 255 with (Z.ones 8). rewrite Z.testbit_ones_nonneg by lia.
  destruct (Z.ltb_spec i 8).
  - rewrite (Z.testbit_neg_r _ (i - 8)) by lia. destruct (Z.testbit x i); reflexivity.
  - rewrite (Z.shiftr_spec _ _ (i - 8)) by lia. replace (i - 8 + 8) with i by lia.
    destruct (Z.testbit x i); reflexivity.
Qed.

(** Feeding the register the complement of its own low byte: the register
    content is shifted out and what remains does not depend on it. *)
Lemma crc_byte_own_complement (x k : Z) (b : byte) :
  byte_val b = Z.lxor (Z.land x 255) 255 ->
  crc_byte (Z.lxor x k) b =
  Z.lxor (Z.shiftr x 8) (Nat.iter 8 crc_shift (Z.lxor 255 k)).
Proof.
  intro Hb. unfold crc_byte. rewrite Hb.
  replace (Z.lxor (Z.lxor x k) (Z.lxor (Z.land x 255) 255))
    with (Z.lxor (Z.lxor x (Z.land x 255)) (Z.lxor 255 k)) by bitwise.
  rewrite iter_crc_shift_lxor, clear_low_byte.
  rewrite (iter_crc_shift_shiftl 8). reflexivity.
Qed.

Lemma crc_shift_range (r : Z) : 0 <= r < 2 ^ 32 -> 0 <= crc_shift r < 2 ^ 32.
Proof.
  intro Hr. unfold crc_shift. apply lxor_range; [lia| |].
  - rewrite Z.shiftr_div_pow2 by lia. change (2 ^ 1) with 2.
    split; [apply Z.div_pos; lia|]. apply Z.div_lt_upper_bound; lia.
  - destruct (Z.odd r); unfold POLY; lia.
Qed.

Lemma crc_byte_range (r : Z) (b : byte) :
  0 <= r < 2 ^ 32 -> 0 <= crc_byte r b < 2 ^ 32.
Proof.
  intro Hr. unfold crc_byte.
  assert (H : 0 <= Z.lxor r (byte_val b) < 2 ^ 32).
  { apply lxor_range; [lia|exact Hr|]. pose proof (byte_val_range b). lia. }
  revert H. generalize (Z.lxor r (byte_val b)). intros z Hz.
  do 8 (rewrite Nat.iter_succ; apply crc_shift_range). exact Hz.
Qed.

Lemma crc_fold_range (data : list byte) (r : Z) :
  0 <= r < 2 ^ 32 -> 0 <= fold_left crc_byte data r < 2 ^ 32.
Proof.
  revert r. induction data as [|b data IH]; intros r Hr; cbn [fold_left].
  - exact Hr.
  - apply IH, crc_byte_range, Hr.
Qed.

Lemma crc32_ieee_range (data : list byte) : 0 <= crc32_ieee data < 2 ^ 32.
Proof.
  unfold crc32_ieee, crc32_ieee_update, lnot32.
  apply lxor_range; [lia| |lia].
  apply crc_fold_range. vm_compute. split; [discriminate|reflexivity].
Qed.

Lemma le32_byte_of_complement (r i : Z) :
  i = 0 \/ i = 8 \/ i = 16 \/ i = 24 ->
  byte_val (byte_of_Z (Z.shiftr (lnot32 r) i)) =
  Z.lxor (Z.land (Z.shiftr r i) 255) 255.
Proof.
  intro Hi. rewrite byte_val_of_Z.
  change 256 with (2 ^ 8). rewrite <- Z.land_ones by lia.
  change (Z.ones 8) with 255.
  unfold lnot32. rewrite Z.shiftr_lxor.
  transitivity (Z.lxor (Z.land (Z.shiftr r i) 255)
                       (Z.land (Z.shiftr 0xFFFFFFFF i) 255)); [bitwise|].
  f_equal. destruct Hi as [-> | [-> | [-> | ->]]]; reflexivity.
Qed.

(** The residue before the final xor: running the register over the
    little-endian image of its own complement always ends in the same
    value. *)
Lemma crc_fold_own_complement (r : Z) :
  0 <= r < 2 ^ 32 ->
  fold_left crc_byte (le32_bytes (lnot32 r)) r = 0xDEBB20E3.
Proof.
  intro Hr. unfold le32_bytes. cbn [fold_left].
  rewrite <- (Z.lxor_0_r r) at 1.
  rewrite (crc_byte_own_complement r 0).
  2:{ rewrite <- (Z.shiftr_0_r (lnot32 r)), (le32_byte_of_complement r 0) by auto.
      rewrite Z.shiftr_0_r. reflexivity. }
  rewrite (crc_byte_own_complement (Z.shiftr r 8)).
  2:{ apply le32_byte_of_complement; auto. }
  rewrite Z.shiftr_shiftr by lia.
  rewrite (crc_byte_own_complement (Z.shiftr r (8 + 8))).
  2:{ apply (le32_byte_of_complement r 16); auto. }
  rewrite Z.shiftr_shiftr by lia.
  rewrite (crc_byte_own_complement (Z.shiftr r (8 + 8 + 8))).
  2:{ apply (le32_byte_of_complement r 24); auto. }
  rewrite Z.shiftr_shiftr by lia.
  change (8 + 8 + 8 + 8) with 32.
  rewrite Z.shiftr_div_pow2, Z.div_small by lia.
  vm_compute. reflexivity.
Qed.

(** The residue property: the CRC of a message followed by the
    little-endian image of its CRC is the residue constant. *)
Lemma crc32_ieee_residue (data : list byte) :
  crc32_ieee (data ++ le32_bytes (crc32_ieee data)) = residue.
Proof.
  unfold crc32_ieee, crc32_ieee_update.
  rewrite fold_left_app, crc_fold_own_complement.
  - vm_compute. reflexivity.
  - apply crc_fold_range. vm_compute. split; [discriminate|reflexivity].
Qed.

End CRCFacts.

(** ** The section walk *)

Lemma wrap32_small (x : Z) : 0 <= x < 2 ^ 32 -> wrap32 x = x.
Proof. intro H. unfold wrap32. apply Z.mod_small, H. Qed.

Section Walk.

Variable p : platform.
Hypothesis Hp : platform_ok p.

Lemma SRAM_END_eq : SRAM_END p = SRAM_BEGIN p + dt_sram0_size p.
Proof.
  destruct Hp as (H1 & H2 & H3 & H4). unfold SRAM_END, SRAM_BEGIN.
  unfold_consts. apply wrap32_small. lia.
Qed.

Lemma LARGE_SECTION_BEGIN_eq :
  LARGE_SECTION_BEGIN p = SRAM_BEGIN p + SMALL_SECTION_SPAN.
Proof.
  destruct Hp as (H1 & H2 & H3 & H4). unfold LARGE_SECTION_BEGIN, SRAM_BEGIN.
  unfold_consts. apply wrap32_small. lia.
Qed.

Lemma SRAM_bounds :
  0 <= SRAM_BEGIN p <= SRAM_END p /\ SRAM_END p + LARGE_SECTION_SIZE <= 2 ^ 32.
Proof.
  rewrite SRAM_END_eq. destruct Hp as (H1 & H2 & H3 & H4).
  unfold SRAM_BEGIN. lia.
Qed.

(** Inside the RAM the address moves forward, by at least one byte and at
    most one section, and does not wrap. *)
Lemma next_section_addr_step (addr : Z) :
  0 <= addr < SRAM_END p ->
  let '(_, _, section_size, _) := section_geometry p addr in
  next_section_addr p addr = addr + (section_size - addr mod section_size) /\
  1 <= section_size - addr mod section_size <= section_size /\
  section_size <= LARGE_SECTION_SIZE.
Proof.
  intro Ha. pose proof SRAM_bounds as (Hb & He).
  unfold next_section_addr, section_geometry.
  destruct (LARGE_SECTION_BEGIN p <=? addr); unfold_consts.
  - pose proof (Z.mod_pos_bound addr 32768 ltac:(lia)).
    rewrite (wrap32_small (32768 - _)) by lia.
    rewrite wrap32_small by lia. lia.
  - pose proof (Z.mod_pos_bound addr 4096 ltac:(lia)).
    rewrite (wrap32_small (4096 - _)) by lia.
    rewrite wrap32_small by lia. lia.
Qed.

Lemma next_section_addr_gt (addr : Z) :
  0 <= addr < SRAM_END p ->
  addr < next_section_addr p addr <= addr + LARGE_SECTION_SIZE.
Proof.
  intro Ha. pose proof (next_section_addr_step addr Ha) as H.
  destruct (section_geometry p addr) as [[[b bb] ss] spb]. lia.
Qed.

(** The loop exits: the distance to [addr_end] bounds the iterations. *)
Lemma ram_range_retain_loop_terminates (enable : bool) (addr_end : Z) :
  addr_end <= SRAM_END p ->
  forall (fuel : nat) (addr : Z),
    0 <= addr < addr_end ->
    (Z.to_nat (addr_end - addr) <= fuel)%nat ->
    exists calls,
      ram_range_retain_loop p fuel addr addr_end enable = Some calls.
Proof.
  intros He fuel. induction fuel as [|fuel IH]; intros addr Ha Hf; [lia|].
  cbn [ram_range_retain_loop].
  destruct (section_of_addr p addr) as [block mask].
  pose proof (next_section_addr_gt addr ltac:(lia)) as Hn.
  destruct (Z.ltb_spec (next_section_addr p addr) addr_end) as [Hlt|Hge].
  - destruct (IH (next_section_addr p addr)) as [calls Hc]; [lia|lia|].
    rewrite Hc. cbn. eauto.
  - eauto.
Qed.

(** More fuel does not change a result. *)
Lemma ram_range_retain_loop_fuel (enable : bool) (addr_end : Z) :
  forall (fuel fuel' : nat) (addr : Z) (calls : list hw_call),
    ram_range_retain_loop p fuel addr addr_end enable = Some calls ->
    (fuel <= fuel')%nat ->
    ram_range_retain_loop p fuel' addr addr_end enable = Some calls.
Proof.
  induction fuel as [|fuel IH]; intros fuel' addr calls H Hle; [discriminate|].
  destruct fuel' as [|fuel']; [lia|].
  cbn [ram_range_retain_loop] in *.
  destruct (section_of_addr p addr) as [block mask].
  destruct (next_section_addr p addr <? addr_end); [|exact H].
  destruct (ram_range_retain_loop p fuel _ _ _) as [cs|] eqn:E; [|discriminate].
  rewrite (IH fuel' _ cs E) by lia. exact H.
Qed.

(** The bounds check lets a range through exactly when it lies in the
    RAM, provided its length does not exceed the end address. *)
Lemma bounds_check_in_range (ptr len : Z) :
  0 <= len <= SRAM_END p ->
  ((len =? 0) || (ptr <? SRAM_BEGIN p) || (wrap32 (SRAM_END p - len) <? ptr))
  = false <->
  (0 < len /\ SRAM_BEGIN p <= ptr /\ ptr + len <= SRAM_END p).
Proof.
  intro Hl. pose proof SRAM_bounds as (Hb & He). unfold_consts.
  rewrite wrap32_small by lia.
  rewrite !orb_false_iff, Z.eqb_neq, !Z.ltb_ge. lia.
Qed.

Lemma ram_range_retain_in_range (fuel : nat) (ptr len : Z) (enable : bool) :
  0 < len -> SRAM_BEGIN p <= ptr -> ptr + len <= SRAM_END p ->
  ram_range_retain p fuel ptr len enable =
  option_map (fun calls => (0, calls))
    (ram_range_retain_loop p fuel ptr (ptr + len) enable).
Proof.
  intros Hl Hb He. pose proof SRAM_bounds as (Hb' & He'). unfold_consts.
  unfold ram_range_retain.
  rewrite (proj2 (bounds_check_in_range ptr len ltac:(lia))) by lia.
  rewrite wrap32_small by lia. reflexivity.
Qed.

(** [ram_range_retain] returns for every pointer, as long as the length
    does not exceed the end address of the RAM. *)
Lemma ram_range_retain_returns (fuel : nat) (ptr len : Z) (enable : bool) :
  0 <= len <= SRAM_END p ->
  (Z.to_nat len <= fuel)%nat ->
  exists ret calls, ram_range_retain p fuel ptr len enable = Some (ret, calls).
Proof.
  intros Hl Hf.
  destruct ((len =? 0) || (ptr <? SRAM_BEGIN p)
            || (wrap32 (SRAM_END p - len) <? ptr)) eqn:E.
  - unfold ram_range_retain. rewrite E. eauto.
  - apply bounds_check_in_range in E; [|exact Hl]. destruct E as (H1 & H2 & H3).
    rewrite ram_range_retain_in_range by assumption.
    pose proof SRAM_bounds as (Hb' & He').
    destruct (ram_range_retain_loop_terminates enable (ptr + len) H3 fuel ptr)
      as [calls Hc]; [lia|lia|].
    rewrite Hc. cbn. eauto.
Qed.

(** The calls of the two modes are the same list of [(block, mask)] pairs,
    set in one mode and cleared in the other. *)
Lemma ram_range_retain_loop_pairs (addr_end : Z) :
  forall (fuel : nat) (addr : Z),
  exists pairs : option (list (Z * Z)),
  forall enable,
    ram_range_retain_loop p fuel addr addr_end enable =
    option_map (map (fun bm => rampower_call enable (fst bm) (snd bm))) pairs.
Proof.
  induction fuel as [|fuel IH]; intro addr.
  - exists None. reflexivity.
  - cbn [ram_range_retain_loop].
    destruct (section_of_addr p addr) as [block mask].
    destruct (next_section_addr p addr <? addr_end).
    + destruct (IH (next_section_addr p addr)) as [pairs Hpairs].
      exists (option_map (cons (block, mask)) pairs). intro enable.
      rewrite Hpairs. destruct pairs; reflexivity.
    + exists (Some [(block, mask)]). reflexivity.
Qed.

End Walk.

(** ** The walk against the layout *)

Section WalkLayout.
Import Layout.

Variable p : platform.
Hypothesis Hp : platform_ok p.
Hypothesis Halign : platform_aligned p.

Lemma section_index_nonneg (addr : Z) :
  SRAM_BEGIN p <= addr -> 0 <= section_index p addr.
Proof. intro Ha. layout_arith. Qed.

Lemma section_of_addr_layout (addr : Z) :
  SRAM_BEGIN p <= addr < SRAM_END p ->
  section_of_addr p addr =
  (section_block (section_index p addr), section_mask p (section_index p addr)).
Proof.
  intro Ha. pose proof (SRAM_bounds p Hp) as (Hb & He).
  unfold section_of_addr, section_geometry, section_mask.
  rewrite (LARGE_SECTION_BEGIN_eq p Hp).
  unfold_consts.
  destruct (Z.leb_spec (SRAM_BEGIN p + 8 * (2 * 4096)) addr) as [Hl|Hs].
  - rewrite wrap32_small by lia.
    set (j := (addr - (SRAM_BEGIN p + 8 * (2 * 4096))) / 32768).
    assert (Hj : 0 <= j) by (subst j; Z.div_mod_to_equations; lia).
    assert (Hk : section_index p addr = 16 + j) by (subst j; layout_arith).
    rewrite Hk. unfold section_block, section_bit.
    replace (16 + j <? 16) with false by (symmetry; apply Z.ltb_ge; lia).
    replace (16 + j - 16) with j by lia.
    destruct (Z.leb_spec 16 j) as [H16|H16]; [reflexivity|].
    rewrite (Z.div_small j 16), (Z.mod_small j 16) by lia. reflexivity.
  - rewrite wrap32_small by lia.
    set (k := (addr - SRAM_BEGIN p) / 4096).
    assert (Hk0 : 0 <= k < 16) by (subst k; Z.div_mod_to_equations; lia).
    assert (Hk : section_index p addr = k) by (subst k; layout_arith).
    rewrite Hk. unfold section_block, section_bit.
    replace (k <? 16) with true by (symmetry; apply Z.ltb_lt; lia).
    destruct (Z.leb_spec 2 k) as [H2|H2].
    + replace (wrap8 (0 + k / 2)) with (k / 2); [reflexivity|].
      unfold wrap8. change (2 ^ 8) with 256. Z.div_mod_to_equations; lia.
    + rewrite (Z.div_small k 2), (Z.mod_small k 2) by lia. reflexivity.
Qed.

Lemma next_section_addr_layout (addr : Z) :
  SRAM_BEGIN p <= addr < SRAM_END p ->
  next_section_addr p addr = section_start p (section_index p addr + 1).
Proof.
  intro Ha. pose proof (SRAM_bounds p Hp) as (Hb & He).
  pose proof (next_section_addr_step p Hp addr ltac:(lia)) as H.
  unfold section_geometry in H. rewrite (LARGE_SECTION_BEGIN_eq p Hp) in H.
  revert H. unfold_consts.
  destruct (Z.leb_spec (SRAM_BEGIN p + 8 * (2 * 4096)) addr) as [Hl|Hs];
    intros (-> & _); layout_arith.
Qed.

Lemma section_start_le (k x : Z) :
  0 <= k -> SRAM_BEGIN p <= x ->
  section_start p k <= x <-> k <= section_index p x.
Proof. intros Hk Hx. layout_arith. Qed.

Lemma section_index_start (k : Z) :
  0 <= k -> section_index p (section_start p k) = k.
Proof. intro Hk. layout_arith. Qed.

Lemma section_index_mono (x y : Z) :
  SRAM_BEGIN p <= x <= y -> section_index p x <= section_index p y.
Proof. intro H. layout_arith. Qed.

(** The loop makes the call of each section from the one holding [addr]
    to the one holding the last byte, and nothing else. *)
Lemma ram_range_retain_loop_layout (enable : bool) (addr_end : Z) :
  addr_end <= SRAM_END p ->
  forall (n : nat) (addr : Z) (fuel : nat),
    SRAM_BEGIN p <= addr < addr_end ->
    section_index p (addr_end - 1) - section_index p addr = Z.of_nat n ->
    (n < fuel)%nat ->
    ram_range_retain_loop p fuel addr addr_end enable =
    Some (map (section_call p enable) (Zseq (section_index p addr) (S n))).
Proof.
  intros He n. induction n as [|n IH]; intros addr fuel Ha Hn Hf;
    (destruct fuel as [|fuel]; [lia|]);
    cbn [ram_range_retain_loop];
    rewrite section_of_addr_layout, next_section_addr_layout by lia;
    pose proof (section_index_nonneg addr ltac:(lia)) as Hk;
    pose proof (section_start_le (section_index p addr + 1) (addr_end - 1)
                  ltac:(lia) ltac:(lia)) as Hle.
  - destruct (Z.ltb_spec (section_start p (section_index p addr + 1)) addr_end);
      [lia|reflexivity].
  - destruct (Z.ltb_spec (section_start p (section_index p addr + 1)) addr_end);
      [|lia].
    pose proof (next_section_addr_gt p Hp addr ltac:(pose proof (SRAM_bounds p Hp); lia)) as Hgt.
    rewrite next_section_addr_layout in Hgt by lia.
    rewrite (IH (section_start p (section_index p addr + 1)) fuel).
    + rewrite section_index_start by lia. reflexivity.
    + lia.
    + rewrite section_index_start by lia. lia.
    + lia.
Qed.

End WalkLayout.

(** ** Retained records *)

Lemma read_bytes_in_range (mem : list byte) (n : Z) :
  0 <= n <= Z.of_nat (length mem) ->
  read_bytes mem n = Done (firstn (Z.to_nat n) mem).
Proof.
  intro H. unfold read_bytes.
  replace (n <? 0) with false by (symmetry; apply Z.ltb_ge; lia).
  replace (Z.of_nat (length mem) <? n) with false
    by (symmetry; apply Z.ltb_ge; lia).
  reflexivity.
Qed.

Lemma memset0_whole (mem : list byte) :
  memset0 mem (Z.of_nat (length mem)) = Done (repeat x00 (length mem)).
Proof.
  unfold memset0.
  replace (Z.of_nat (length mem) <? 0) with false
    by (symmetry; apply Z.ltb_ge; lia).
  rewrite Z.ltb_irrefl, Nat2Z.id, skipn_all, app_nil_r. reflexivity.
Qed.

Lemma store_le32_in_range (mem : list byte) (off v : Z) :
  0 <= off <= Z.of_nat (length mem) - 4 ->
  store_le32 mem off v =
  Done (firstn (Z.to_nat off) mem ++ le32_bytes v
        ++ skipn (Z.to_nat off + 4) mem).
Proof.
  intro H. unfold store_le32.
  replace (off <? 0) with false by (symmetry; apply Z.ltb_ge; lia).
  replace (Z.of_nat (length mem) <? off + 4) with false
    by (symmetry; apply Z.ltb_ge; lia).
  reflexivity.
Qed.

Lemma le32_decode_bytes (v : Z) :
  0 <= v < 2 ^ 32 -> le32_decode (le32_bytes v) = v.
Proof.
  intro Hv. unfold le32_decode, le32_bytes. cbn [fold_right].
  rewrite !byte_val_of_Z, !Z.shiftr_div_pow2 by lia.
  change (2 ^ 8) with 256. change (2 ^ 16) with 65536.
  change (2 ^ 24) with 16777216. change (2 ^ 32) with 4294967296 in Hv.
  Z.div_mod_to_equations. lia.
Qed.

Lemma ram_retained_update_spec (mem : list byte) (off : Z) :
  0 <= off <= Z.of_nat (length mem) - 4 ->
  ram_retained_update mem off =
  Done (firstn (Z.to_nat off) mem
        ++ le32_bytes (CRC.crc32_ieee (firstn (Z.to_nat off) mem))
        ++ skipn (Z.to_nat off + 4) mem).
Proof.
  intro H. unfold ram_retained_update.
  rewrite read_bytes_in_range by lia. cbn [bind].
  apply store_le32_in_range, H.
Qed.

Lemma updated_length (mem : list byte) (off : Z) (w : list byte) :
  0 <= off <= Z.of_nat (length mem) - 4 -> length w = 4%nat ->
  length (firstn (Z.to_nat off) mem ++ w ++ skipn (Z.to_nat off + 4) mem)
  = length mem.
Proof.
  intros H Hw. rewrite !length_app, length_firstn, length_skipn, Hw. lia.
Qed.

Lemma updated_checked_bytes (mem : list byte) (off : Z) (w : list byte) :
  0 <= off <= Z.of_nat (length mem) - 4 -> length w = 4%nat ->
  firstn (Z.to_nat (off + 4))
    (firstn (Z.to_nat off) mem ++ w ++ skipn (Z.to_nat off + 4) mem)
  = firstn (Z.to_nat off) mem ++ w.
Proof.
  intros H Hw. rewrite app_assoc.
  rewrite firstn_app.
  assert (Hl : length (firstn (Z.to_nat off) mem ++ w) = Z.to_nat (off + 4)).
  { rewrite length_app, length_firstn, Hw. lia. }
  rewrite Hl, Nat.sub_diag, firstn_O, app_nil_r.
  rewrite <- Hl. apply firstn_all.
Qed.

Section Validate.

Variable p : platform.
Hypothesis Hp : platform_ok p.

(** What [ram_retained_validate] does on a record of [length mem] bytes
    whose checksum field starts at [off]. *)
Lemma ram_retained_validate_spec (fuel : nat) (mem : list byte) (ptr off : Z) :
  0 <= off <= Z.of_nat (length mem) - 4 ->
  Z.of_nat (length mem) <= SRAM_END p ->
  (Z.to_nat (off + 4) <= fuel)%nat ->
  exists ret calls,
    ram_range_retain p fuel ptr (off + 4) true = Some (ret, calls) /\
    ram_retained_validate p fuel mem ptr (Z.of_nat (length mem)) off 4 =
    let ok := CRC.crc32_ieee (firstn (Z.to_nat (off + 4)) mem) =? residue in
    Done {| valid := ok;
            record_bytes := if ok then mem else repeat x00 (length mem);
            retention_calls := calls |}.
Proof.
  intros Hoff HL Hf. pose proof (SRAM_bounds p Hp) as (Hb & He).
  unfold LARGE_SECTION_SIZE in He.
  destruct (ram_range_retain_returns p Hp fuel ptr (off + 4) true)
    as (ret & calls & Hr); [lia|exact Hf|].
  exists ret, calls. split; [exact Hr|].
  unfold ram_retained_validate.
  rewrite wrap32_small by lia.
  rewrite read_bytes_in_range by lia. cbn [bind]. cbv zeta.
  destruct (CRC.crc32_ieee (firstn (Z.to_nat (off + 4)) mem) =? residue);
    cbn [negb]; [|rewrite memset0_whole]; cbn [bind]; rewrite Hr; reflexivity.
Qed.

End Validate.

(** ** Sanity checks of the model *)

(** The check value of the CRC catalogue: the ASCII digits 1 to 9. *)
Example crc32_check_value :
  CRC.crc32_ieee [x31; x32; x33; x34; x35; x36; x37; x38; x39] = 0xCBF43926.
Proof. vm_compute. reflexivity. Qed.

(** A record holding the value 5: the update stores the CRC 0x169A2F2E of
    the four value bytes, lowest byte first. *)
Example update_value_five :
  ram_retained_update [x05; x00; x00; x00; x00; x00; x00; x00] 4 =
  Done [x05; x00; x00; x00; x2e; x2f; x9a; x16].
Proof. vm_compute. reflexivity. Qed.

(* ------------------------------------------------------------------ *)
(** * The claims *)

Lemma nrf52840_ok : platform_ok nrf52840.
Proof. unfold platform_ok. cbn. lia. Qed.

Lemma nrf52840_aligned : platform_aligned nrf52840.
Proof. reflexivity. Qed.

(** ** Section mapping *)

(** C1, as stated, fails: for the range that spans both sections of small
    block 3 of the nRF52840 layout, [ram_range_retain] makes two calls for
    block 3, each with a one-bit mask; no amount of fuel makes it a single
    call with a merged mask. *)
Lemma block3_range_is_not_merged :
  ram_range_retain nrf52840 2 0x20006000 8192 true =
    Some (0, [nrf_power_rampower_mask_on 3 0x10000;
              nrf_power_rampower_mask_on 3 0x20000]) /\
  ~ (exists fuel mask,
       ram_range_retain nrf52840 fuel 0x20006000 8192 true =
       Some (0, [nrf_power_rampower_mask_on 3 mask])).
Proof.
  split; [vm_compute; reflexivity|].
  intros (fuel & mask & H).
  destruct fuel as [|[|fuel]]; vm_compute in H; discriminate H.
Qed.

(** C1, amended: for every range inside the RAM, [ram_range_retain]
    returns 0 after exactly one call per section touched, in address
    order, each with the retention bit of that one section; sections of
    the same block are not merged.  On the nRF52840 layout the range
    spanning both sections of small block 3 gives the two calls
    (3, bit 16) and (3, bit 17), and a range crossing from the last
    section of block 7 into the first large section gives two calls, one
    per block. *)
Theorem ram_range_retain_one_call_per_section :
  (forall (p : platform) (fuel : nat) (ptr len : Z) (enable : bool),
      platform_ok p -> platform_aligned p ->
      0 < len -> SRAM_BEGIN p <= ptr -> ptr + len <= SRAM_END p ->
      (length (Layout.sections_touched p ptr len) <= fuel)%nat ->
      ram_range_retain p fuel ptr len enable =
      Some (0, map (Layout.section_call p enable)
                 (Layout.sections_touched p ptr len))) /\
  ram_range_retain nrf52840 2 0x20006000 8192 true =
    Some (0, [nrf_power_rampower_mask_on 3 0x10000;
              nrf_power_rampower_mask_on 3 0x20000]) /\
  ram_range_retain nrf52840 2 0x2000FFF0 32 true =
    Some (0, [nrf_power_rampower_mask_on 7 0x20000;
              nrf_power_rampower_mask_on 8 0x10000]).
Proof.
  split; [|split; vm_compute; reflexivity].
  intros p fuel ptr len enable Hp Hal Hlen Hb He Hf.
  rewrite ram_range_retain_in_range by assumption.
  unfold Layout.sections_touched in *.
  pose proof (section_index_mono p ptr (ptr + len - 1) ltac:(lia)) as Hm.
  set (n := Z.to_nat (Layout.section_index p (ptr + len - 1)
                      - Layout.section_index p ptr)).
  replace (Z.to_nat (Layout.section_index p (ptr + len - 1)
                     - Layout.section_index p ptr + 1)) with (S n) in * by lia.
  rewrite (ram_range_retain_loop_layout p Hp Hal enable (ptr + len) He n).
  - reflexivity.
  - lia.
  - lia.
  - assert (Hl : forall from m, length (Layout.Zseq from m) = m).
    { intros from m. revert from. induction m; intro; cbn; auto. }
    rewrite Hl in Hf. lia.
Qed.

Lemma ram_range_retain_one_call_per_section_witness :
  ram_range_retain nrf52840 3 0x2000E000 8193 false =
  Some (0, map (Layout.section_call nrf52840 false)
             (Layout.sections_touched nrf52840 0x2000E000 8193)).
Proof.
  apply (proj1 ram_range_retain_one_call_per_section nrf52840 3%nat).
  - exact nrf52840_ok.
  - exact nrf52840_aligned.
  - lia.
  - vm_compute. discriminate.
  - vm_compute. discriminate.
  - vm_compute. apply le_n.
Defined.

(** C9: for every range inside the RAM the section walk terminates.  At
    every address of the range one iteration moves the address forward by
    [section_size - addr mod section_size], which is at least 1, without
    wrapping; with fuel for [len] iterations the loop has exited and
    [ram_range_retain] has returned 0. *)
Theorem ram_range_retain_terminates
    (p : platform) (fuel : nat) (ptr len : Z) (enable : bool) :
  platform_ok p ->
  0 < len -> SRAM_BEGIN p <= ptr -> ptr + len <= SRAM_END p ->
  (Z.to_nat len <= fuel)%nat ->
  (forall addr, ptr <= addr < ptr + len ->
     let '(_, _, section_size, _) := section_geometry p addr in
     next_section_addr p addr = addr + (section_size - addr mod section_size)
     /\ 1 <= section_size - addr mod section_size) /\
  exists calls, ram_range_retain p fuel ptr len enable = Some (0, calls).
Proof.
  intros Hp Hlen Hb He Hf. pose proof (SRAM_bounds p Hp) as (Hb' & He').
  split.
  - intros addr Ha.
    pose proof (next_section_addr_step p Hp addr ltac:(lia)) as H.
    destruct (section_geometry p addr) as [[[b bb] ss] spb]. tauto.
  - rewrite ram_range_retain_in_range by assumption.
    destruct (ram_range_retain_loop_terminates p Hp enable (ptr + len) He
                fuel ptr) as [calls Hc]; [lia|lia|].
    exists calls. rewrite Hc. reflexivity.
Qed.

Lemma ram_range_retain_terminates_witness :
  (forall addr, 0x2000FFF0 <= addr < 0x2000FFF0 + 32 ->
     let '(_, _, section_size, _) := section_geometry nrf52840 addr in
     next_section_addr nrf52840 addr
       = addr + (section_size - addr mod section_size)
     /\ 1 <= section_size - addr mod section_size) /\
  exists calls,
    ram_range_retain nrf52840 32 0x2000FFF0 32 true = Some (0, calls).
Proof.
  apply (ram_range_retain_terminates nrf52840 32%nat 0x2000FFF0 32 true).
  - exact nrf52840_ok.
  - lia.
  - vm_compute. discriminate.
  - vm_compute. discriminate.
  - vm_compute. apply le_n.
Defined.

(** C10: for every range inside the RAM, [ram_range_retain] with
    [enable = true] and with [enable = false] both return 0 and make calls
    with the same sequence of [(block, section_mask)] pairs; the one sets
    each mask with [nrf_power_rampower_mask_on], the other clears it with
    [nrf_power_rampower_mask_off]. *)
Theorem ram_range_retain_enable_disable
    (p : platform) (fuel : nat) (ptr len : Z) :
  platform_ok p ->
  0 < len -> SRAM_BEGIN p <= ptr -> ptr + len <= SRAM_END p ->
  (Z.to_nat len <= fuel)%nat ->
  exists pairs : list (Z * Z),
    ram_range_retain p fuel ptr len true =
      Some (0, map (fun bm => nrf_power_rampower_mask_on (fst bm) (snd bm)) pairs)
    /\
    ram_range_retain p fuel ptr len false =
      Some (0, map (fun bm => nrf_power_rampower_mask_off (fst bm) (snd bm)) pairs).
Proof.
  intros Hp Hlen Hb He Hf. pose proof (SRAM_bounds p Hp) as (Hb' & He').
  rewrite !ram_range_retain_in_range by assumption.
  destruct (ram_range_retain_loop_pairs p (ptr + len) fuel ptr) as [pairs Hpairs].
  destruct (ram_range_retain_loop_terminates p Hp true (ptr + len) He fuel ptr)
    as [calls Hc]; [lia|lia|].
  rewrite (Hpairs true) in Hc. destruct pairs as [pairs|]; [|discriminate].
  exists pairs. rewrite !Hpairs. split; reflexivity.
Qed.

Lemma ram_range_retain_enable_disable_witness :
  exists pairs : list (Z * Z),
    ram_range_retain nrf52840 32 0x2000FFF0 32 true =
      Some (0, map (fun bm => nrf_power_rampower_mask_on (fst bm) (snd bm)) pairs)
    /\
    ram_range_retain nrf52840 32 0x2000FFF0 32 false =
      Some (0, map (fun bm => nrf_power_rampower_mask_off (fst bm) (snd bm)) pairs).
Proof.
  apply (ram_range_retain_enable_disable nrf52840 32%nat 0x2000FFF0 32).
  - exact nrf52840_ok.
  - lia.
  - vm_compute. discriminate.
  - vm_compute. discriminate.
  - vm_compute. apply le_n.
Defined.

(** ** Bounds rejection *)

(** The ranges that the bounds check turns away, with no call made: the
    empty ones, those starting below the RAM, and those ending above it
    whose length does not exceed the end address of the RAM. *)
Lemma ram_range_retain_rejects
    (p : platform) (fuel : nat) (ptr len : Z) (enable : bool) :
  platform_ok p ->
  len = 0 \/ ptr < SRAM_BEGIN p \/
  (0 <= len <= SRAM_END p /\ SRAM_END p < ptr + len) ->
  ram_range_retain p fuel ptr len enable = Some (- EINVAL, []).
Proof.
  intros Hp H. pose proof (SRAM_bounds p Hp) as (Hb & He).
  unfold LARGE_SECTION_SIZE in He.
  unfold ram_range_retain.
  replace ((len =? 0) || (ptr <? SRAM_BEGIN p)
           || (wrap32 (SRAM_END p - len) <? ptr)) with true; [reflexivity|].
  symmetry. rewrite !orb_true_iff, Z.eqb_eq, !Z.ltb_lt.
  destruct H as [H | [H | [H1 H2]]]; [tauto|tauto|].
  right. rewrite wrap32_small by lia. lia.
Qed.

(** C5, at the failing input: on the nRF52840 (RAM from 0x20000000 to
    0x20040000) the range of length 0x20040001 that starts at the RAM base
    ends far above the RAM, yet the bounds check lets it through, because
    [SRAM_END - len] wraps around to 0xFFFFFFFF: [ram_range_retain]
    returns 0 after 16407 calls into the peripheral instead of [-EINVAL]
    after none. *)
Theorem ram_range_retain_accepts_oversized_length :
  SRAM_END nrf52840 < 0x20000000 + 0x20040001 /\
  wrap32 (SRAM_END nrf52840 - 0x20040001) = 0xFFFFFFFF /\
  exists calls,
    ram_range_retain nrf52840 (Z.to_nat 16407) 0x20000000 0x20040001 true
      = Some (0, calls) /\
    Z.of_nat (length calls) = 16407 /\
    hd_error calls = Some (nrf_power_rampower_mask_on 0 0x10000).
Proof.
  split; [vm_compute; reflexivity|].
  split; [vm_compute; reflexivity|].
  destruct (ram_range_retain nrf52840 (Z.to_nat 16407) 0x20000000 0x20040001 true)
    as [[ret calls]|] eqn:E.
  - exists calls.
    assert (H : option_map (fun rc => (fst rc, Z.of_nat (length (snd rc)), hd_error (snd rc)))
                  (ram_range_retain nrf52840 (Z.to_nat 16407)
                     0x20000000 0x20040001 true)
                = Some (0, 16407, Some (nrf_power_rampower_mask_on 0 0x10000)))
      by (vm_compute; reflexivity).
    rewrite E in H. cbn [option_map fst snd] in H.
    injection H as -> Hlen Hhd. auto.
  - assert (H : ram_range_retain nrf52840 (Z.to_nat 16407)
                  0x20000000 0x20040001 true <> None)
      by (vm_compute; discriminate).
    contradiction.
Qed.

(** ** Validation and update of a retained record *)

(** C2, as stated, fails: a 16-byte record with a 4-byte value, the
    checksum at offset 4 and 8 more bytes behind it, placed 8 bytes below
    a section boundary of the nRF52840.  [ram_retained_validate] arms the
    8 checked bytes, which lie in one section; the full 16-byte range
    reaches into the next section, which stays unarmed.  (The same holds
    for a record with padding behind its checksum, such as an 8-byte value
    followed by the checksum in 16 bytes: 12 bytes are armed.) *)
Lemma validate_arms_checked_bytes_only :
  exists v,
    ram_retained_validate nrf52840 4 (repeat x00 16) 0x20000FF8 16 4 4 = Done v
    /\ retention_calls v = [nrf_power_rampower_mask_on 0 0x10000]
    /\ ram_range_retain nrf52840 4 0x20000FF8 (4 + 4) true =
       Some (0, [nrf_power_rampower_mask_on 0 0x10000])
    /\ ram_range_retain nrf52840 4 0x20000FF8 16 true =
       Some (0, [nrf_power_rampower_mask_on 0 0x10000;
                 nrf_power_rampower_mask_on 0 0x20000]).
Proof.
  eexists. split; [vm_compute; reflexivity|].
  repeat split; vm_compute; reflexivity.
Qed.

(** C2, amended: for every record of L bytes with its checksum field at
    offset [off], 0 <= off <= L - 4, [ram_retained_validate] returns, in
    the valid and in the invalid outcome alike, after the calls of
    [ram_range_retain] with [enable = true] on the first [off + 4] bytes
    of the record (the checked bytes); that is the record's full range
    when the checksum is its last four bytes.  The record is taken to be
    no longer than the end address of the RAM, as every object in the RAM
    is, and the fuel to cover the checked bytes. *)
Theorem validate_arms_checked_range
    (p : platform) (fuel : nat) (mem : list byte) (ptr off : Z) :
  platform_ok p ->
  0 <= off <= Z.of_nat (length mem) - 4 ->
  Z.of_nat (length mem) <= SRAM_END p ->
  (Z.to_nat (off + 4) <= fuel)%nat ->
  exists ret calls v,
    ram_range_retain p fuel ptr (off + 4) true = Some (ret, calls) /\
    ram_retained_validate p fuel mem ptr (Z.of_nat (length mem)) off 4 = Done v /\
    valid v = (CRC.crc32_ieee (firstn (Z.to_nat (off + 4)) mem) =? residue) /\
    retention_calls v = calls /\
    (off = Z.of_nat (length mem) - 4 ->
     ram_range_retain p fuel ptr (Z.of_nat (length mem)) true
     = Some (ret, calls)).
Proof.
  intros Hp Hoff HL Hf.
  destruct (ram_retained_validate_spec p Hp fuel mem ptr off Hoff HL Hf)
    as (ret & calls & Hr & Hv).
  exists ret, calls. eexists. split; [exact Hr|]. split; [exact Hv|].
  cbn. split; [reflexivity|]. split; [reflexivity|].
  intros ->. rewrite <- Hr. f_equal. lia.
Qed.

Lemma validate_arms_checked_range_witness :
  exists ret calls v,
    ram_range_retain nrf52840 8 0x20000100 (4 + 4) true = Some (ret, calls) /\
    ram_retained_validate nrf52840 8 (repeat x00 8) 0x20000100
      (Z.of_nat (length (repeat x00 8))) 4 4 = Done v /\
    valid v = (CRC.crc32_ieee (firstn (Z.to_nat (4 + 4)) (repeat x00 8))
               =? residue) /\
    retention_calls v = calls /\
    (4 = Z.of_nat (length (repeat x00 8)) - 4 ->
     ram_range_retain nrf52840 8 0x20000100
       (Z.of_nat (length (repeat x00 8))) true
     = Some (ret, calls)).
Proof.
  apply (validate_arms_checked_range nrf52840 8%nat (repeat x00 8) 0x20000100 4).
  - exact nrf52840_ok.
  - cbn. lia.
  - vm_compute. discriminate.
  - vm_compute. apply le_n.
Defined.

(** C6: for every record and every valid [off], [ram_retained_update]
    computes the CRC over the bytes before [off] only, stores exactly that
    32-bit value in the four bytes from [off], lowest byte first, and
    leaves the bytes before [off] as they were (and those after the
    checksum too). *)
Theorem update_stores_little_endian_crc (mem : list byte) (off : Z) :
  0 <= off <= Z.of_nat (length mem) - 4 ->
  let crc := CRC.crc32_ieee (firstn (Z.to_nat off) mem) in
  exists mem',
    ram_retained_update mem off = Done mem' /\
    length mem' = length mem /\
    firstn (Z.to_nat off) mem' = firstn (Z.to_nat off) mem /\
    firstn 4 (skipn (Z.to_nat off) mem') = le32_bytes crc /\
    le32_decode (firstn 4 (skipn (Z.to_nat off) mem')) = crc /\
    skipn (Z.to_nat off + 4) mem' = skipn (Z.to_nat off + 4) mem.
Proof.
  intros Hoff crc.
  exists (firstn (Z.to_nat off) mem ++ le32_bytes crc
          ++ skipn (Z.to_nat off + 4) mem).
  split; [apply ram_retained_update_spec, Hoff|].
  assert (Hl : length (firstn (Z.to_nat off) mem) = Z.to_nat off)
    by (rewrite length_firstn; lia).
  assert (Hskip : skipn (Z.to_nat off)
            (firstn (Z.to_nat off) mem ++ le32_bytes crc
             ++ skipn (Z.to_nat off + 4) mem)
          = le32_bytes crc ++ skipn (Z.to_nat off + 4) mem).
  { rewrite skipn_app, Hl, Nat.sub_diag. cbn [skipn].
    rewrite <- Hl at 1. rewrite skipn_all. reflexivity. }
  split; [apply updated_length; [exact Hoff|reflexivity]|].
  split.
  { rewrite firstn_app, Hl, Nat.sub_diag, firstn_O, app_nil_r.
    rewrite <- Hl at 1. apply firstn_all. }
  split; [rewrite Hskip; reflexivity|].
  split.
  { rewrite Hskip. change (firstn 4 (le32_bytes crc ++ _)) with (le32_bytes crc).
    apply le32_decode_bytes, CRCFacts.crc32_ieee_range. }
  assert (Hl2 : length (firstn (Z.to_nat off) mem ++ le32_bytes crc)
                = (Z.to_nat off + 4)%nat)
    by (rewrite length_app, Hl; reflexivity).
  rewrite app_assoc, skipn_app, Hl2, Nat.sub_diag.
  rewrite skipn_all2 by (rewrite Hl2; apply le_n). reflexivity.
Qed.

Lemma update_stores_little_endian_crc_witness :
  let mem := [x05; x00; x00; x00; xaa; xbb; xcc; xdd; xee] in
  let crc := CRC.crc32_ieee (firstn (Z.to_nat 4) mem) in
  exists mem',
    ram_retained_update mem 4 = Done mem' /\
    length mem' = length mem /\
    firstn (Z.to_nat 4) mem' = firstn (Z.to_nat 4) mem /\
    firstn 4 (skipn (Z.to_nat 4) mem') = le32_bytes crc /\
    le32_decode (firstn 4 (skipn (Z.to_nat 4) mem')) = crc /\
    skipn (Z.to_nat 4 + 4) mem' = skipn (Z.to_nat 4 + 4) mem.
Proof.
  apply (update_stores_little_endian_crc
           [x05; x00; x00; x00; xaa; xbb; xcc; xdd; xee] 4).
  cbn. lia.
Defined.

(** C4: for every record of L bytes and every valid [off]: when the CRC
    over the first [off + 4] bytes differs from the residue 0x2144DF1C,
    [ram_retained_validate] returns false and the whole record, checksum
    included, is zero afterwards; when it equals the residue,
    [ram_retained_validate] returns true and the record is unchanged.
    The record is taken to be no longer than the end address of the RAM,
    so that the retention call at the end returns. *)
Theorem validate_resets_or_keeps
    (p : platform) (fuel : nat) (mem : list byte) (ptr off : Z) :
  platform_ok p ->
  0 <= off <= Z.of_nat (length mem) - 4 ->
  Z.of_nat (length mem) <= SRAM_END p ->
  (Z.to_nat (off + 4) <= fuel)%nat ->
  exists calls,
    (CRC.crc32_ieee (firstn (Z.to_nat (off + 4)) mem) <> residue ->
     ram_retained_validate p fuel mem ptr (Z.of_nat (length mem)) off 4 =
     Done {| valid := false; record_bytes := repeat x00 (length mem);
             retention_calls := calls |}) /\
    (CRC.crc32_ieee (firstn (Z.to_nat (off + 4)) mem) = residue ->
     ram_retained_validate p fuel mem ptr (Z.of_nat (length mem)) off 4 =
     Done {| valid := true; record_bytes := mem; retention_calls := calls |}).
Proof.
  intros Hp Hoff HL Hf.
  destruct (ram_retained_validate_spec p Hp fuel mem ptr off Hoff HL Hf)
    as (ret & calls & Hr & Hv).
  exists calls. rewrite Hv. cbv zeta. split; intro Hc.
  - apply Z.eqb_neq in Hc. rewrite Hc. reflexivity.
  - apply Z.eqb_eq in Hc. rewrite Hc. reflexivity.
Qed.

Lemma validate_resets_or_keeps_witness :
  exists calls,
    ram_retained_validate nrf52840 8
      [x05; x00; x00; x00; x01; x02; x03; x04] 0x20000100 8 4 4 =
    Done {| valid := false; record_bytes := repeat x00 8;
            retention_calls := calls |}.
Proof.
  destruct (validate_resets_or_keeps nrf52840 8%nat
              [x05; x00; x00; x00; x01; x02; x03; x04] 0x20000100 4)
    as [calls [Hbad _]].
  - exact nrf52840_ok.
  - cbn. lia.
  - vm_compute. discriminate.
  - vm_compute. apply le_n.
  - exists calls. apply Hbad. vm_compute. discriminate.
Defined.

(** C3: for every record content and every valid [off],
    [ram_retained_update] directly followed by [ram_retained_validate]
    on the same record returns true and leaves every byte as the update
    left it.  The record is taken to be no longer than the end address of
    the RAM, so that the retention call at the end returns. *)
Theorem update_then_validate_round_trip
    (p : platform) (fuel : nat) (mem : list byte) (ptr off : Z) :
  platform_ok p ->
  0 <= off <= Z.of_nat (length mem) - 4 ->
  Z.of_nat (length mem) <= SRAM_END p ->
  (Z.to_nat (off + 4) <= fuel)%nat ->
  exists mem1 calls,
    ram_retained_update mem off = Done mem1 /\
    update_then_validate p fuel mem ptr (Z.of_nat (length mem)) off =
    Done (mem1, {| valid := true; record_bytes := mem1;
                   retention_calls := calls |}).
Proof.
  intros Hp Hoff HL Hf.
  set (crc := CRC.crc32_ieee (firstn (Z.to_nat off) mem)).
  set (mem1 := firstn (Z.to_nat off) mem ++ le32_bytes crc
               ++ skipn (Z.to_nat off + 4) mem).
  assert (Hu : ram_retained_update mem off = Done mem1)
    by (apply ram_retained_update_spec, Hoff).
  assert (Hlen : length mem1 = length mem)
    by (apply updated_length; [exact Hoff|reflexivity]).
  destruct (ram_retained_validate_spec p Hp fuel mem1 ptr off)
    as (ret & calls & Hr & Hv); [lia|lia|exact Hf|].
  exists mem1, calls. split; [exact Hu|].
  unfold update_then_validate. rewrite Hu. cbn [bind].
  rewrite <- Hlen, Hv. cbv zeta.
  replace (CRC.crc32_ieee (firstn (Z.to_nat (off + 4)) mem1) =? residue)
    with true; [reflexivity|].
  symmetry. apply Z.eqb_eq. unfold mem1.
  rewrite updated_checked_bytes by (exact Hoff || reflexivity).
  apply CRCFacts.crc32_ieee_residue.
Qed.

Lemma update_then_validate_round_trip_witness :
  let mem := [x05; x00; x00; x00; x00; x00; x00; x00] in
  exists mem1 calls,
    ram_retained_update mem 4 = Done mem1 /\
    update_then_validate nrf52840 8 mem 0x20000100 (Z.of_nat (length mem)) 4 =
    Done (mem1, {| valid := true; record_bytes := mem1;
                   retention_calls := calls |}).
Proof.
  apply (update_then_validate_round_trip nrf52840 8%nat
           [x05; x00; x00; x00; x00; x00; x00; x00] 0x20000100 4).
  - exact nrf52840_ok.
  - cbn. lia.
  - vm_compute. discriminate.
  - vm_compute. apply le_n.
Defined.

(** C7: for every record whose CRC over the first [off + 4] bytes already
    equals the residue, calling [ram_retained_validate] twice in a row
    returns true both times, with the record unchanged after each call
    (and the same retention calls made each time).  The record is taken
    to be no longer than the end address of the RAM. *)
Theorem validate_twice_on_clean_record
    (p : platform) (fuel : nat) (mem : list byte) (ptr off : Z) :
  platform_ok p ->
  0 <= off <= Z.of_nat (length mem) - 4 ->
  Z.of_nat (length mem) <= SRAM_END p ->
  (Z.to_nat (off + 4) <= fuel)%nat ->
  CRC.crc32_ieee (firstn (Z.to_nat (off + 4)) mem) = residue ->
  exists calls,
    let v := {| valid := true; record_bytes := mem;
                retention_calls := calls |} in
    validate_twice p fuel mem ptr (Z.of_nat (length mem)) off = Done (v, v).
Proof.
  intros Hp Hoff HL Hf Hc.
  destruct (ram_retained_validate_spec p Hp fuel mem ptr off Hoff HL Hf)
    as (ret & calls & Hr & Hv).
  apply Z.eqb_eq in Hc. rewrite Hc in Hv. cbv zeta in Hv.
  exists calls. cbv zeta. unfold validate_twice.
  rewrite Hv. cbn [bind record_bytes]. rewrite Hv. reflexivity.
Qed.

Lemma validate_twice_on_clean_record_witness :
  let mem := [x05; x00; x00; x00; x2e; x2f; x9a; x16] in
  exists calls,
    let v := {| valid := true; record_bytes := mem;
                retention_calls := calls |} in
    validate_twice nrf52840 8 mem 0x20000100 (Z.of_nat (length mem)) 4
    = Done (v, v).
Proof.
  apply (validate_twice_on_clean_record nrf52840 8%nat
           [x05; x00; x00; x00; x2e; x2f; x9a; x16] 0x20000100 4).
  - exact nrf52840_ok.
  - cbn. lia.
  - vm_compute. discriminate.
  - vm_compute. apply le_n.
  - vm_compute. reflexivity.
Defined.

(** C8: for the 8-byte record of all zero bytes with its checksum at
    offset 4, the CRC over all 8 bytes is 0x6522DF69, which differs from
    0x2144DF1C; [ram_retained_validate] returns false and the record is
    all zero afterwards. *)
Theorem validate_cold_boot_zero_record
    (p : platform) (fuel : nat) (ptr : Z) :
  platform_ok p ->
  8 <= SRAM_END p ->
  (8 <= fuel)%nat ->
  CRC.crc32_ieee (repeat x00 8) = 0x6522DF69 /\
  0x6522DF69 <> residue /\
  exists calls,
    ram_retained_validate p fuel (repeat x00 8) ptr 8 4 4 =
    Done {| valid := false; record_bytes := repeat x00 8;
            retention_calls := calls |}.
Proof.
  intros Hp HL Hf.
  split; [vm_compute; reflexivity|]. split; [discriminate|].
  destruct (ram_retained_validate_spec p Hp fuel (repeat x00 8) ptr 4)
    as (ret & calls & Hr & Hv); [cbn; lia|exact HL|exact Hf|].
  exists calls. exact Hv.
Qed.

Lemma validate_cold_boot_zero_record_witness :
  CRC.crc32_ieee (repeat x00 8) = 0x6522DF69 /\
  0x6522DF69 <> residue /\
  exists calls,
    ram_retained_validate nrf52840 8 (repeat x00 8) 0x20000100 8 4 4 =
    Done {| valid := false; record_bytes := repeat x00 8;
            retention_calls := calls |}.
Proof.
  apply (validate_cold_boot_zero_record nrf52840 8%nat 0x20000100).
  - exact nrf52840_ok.
  - vm_compute. discriminate.
  - apply le_n.
Defined.

(* ------------------------------------------------------------------ *)
(** * Further properties *)

(** ** The residue check accepts nothing but the right checksum *)

Module CRCWord.
Import CRC CRCFacts.

Lemma testbit_32_small (x : Z) : 0 <= x < 2 ^ 32 -> Z.testbit x 32 = false.
Proof.
  intro Hx. rewrite <- (Z.mod_small x (2 ^ 32)) by exact Hx.
  apply Z.mod_pow2_bits_high. lia.
Qed.

(** The top bit of the shifted register tells whether a one was shifted
    out. *)
Lemma crc_shift_top_bit (x : Z) :
  0 <= x < 2 ^ 32 -> Z.testbit (crc_shift x) 31 = Z.odd x.
Proof.
  intro Hx. unfold crc_shift.
  rewrite Z.lxor_spec, Z.shiftr_spec by lia.
  change (31 + 1) with 32. rewrite testbit_32_small by exact Hx.
  destruct (Z.odd x); reflexivity.
Qed.

Lemma crc_shift_inj (x y : Z) :
  0 <= x < 2 ^ 32 -> 0 <= y < 2 ^ 32 -> crc_shift x = crc_shift y -> x = y.
Proof.
  intros Hx Hy H.
  assert (Hodd : Z.odd x = Z.odd y)
    by (rewrite <- !crc_shift_top_bit, H by assumption; reflexivity).
  unfold crc_shift in H. rewrite Hodd in H.
  assert (Hs : Z.shiftr x 1 = Z.shiftr y 1).
  { apply Z.lxor_eq.
    set (c := if Z.odd y then POLY else 0) in H.
    replace (Z.lxor (Z.shiftr x 1) (Z.shiftr y 1))
      with (Z.lxor (Z.lxor (Z.shiftr x 1) c) (Z.lxor (Z.shiftr y 1) c))
      by bitwise.
    rewrite H. apply Z.lxor_nilpotent. }
  rewrite <- !Z.div2_spec in Hs.
  rewrite (Z.div2_odd x), (Z.div2_odd y), Hs, Hodd. reflexivity.
Qed.

Lemma iter_crc_shift_range (n : nat) (x : Z) :
  0 <= x < 2 ^ 32 -> 0 <= Nat.iter n crc_shift x < 2 ^ 32.
Proof.
  intro Hx. induction n as [|n IH]; [exact Hx|].
  rewrite Nat.iter_succ. apply crc_shift_range, IH.
Qed.

Lemma iter_crc_shift_inj (n : nat) (x y : Z) :
  0 <= x < 2 ^ 32 -> 0 <= y < 2 ^ 32 ->
  Nat.iter n crc_shift x = Nat.iter n crc_shift y -> x = y.
Proof.
  intros Hx Hy. induction n as [|n IH]; intro H; [exact H|].
  rewrite !Nat.iter_succ in H.
  apply IH, crc_shift_inj; auto using iter_crc_shift_range.
Qed.

(** A byte fed after [k] shifts is a byte xored in [k] bits higher before
    them. *)
Lemma crc_byte_after_shifts (k : nat) (x : Z) (b : byte) :
  crc_byte (Nat.iter k crc_shift x) b =
  Nat.iter (8 + k) crc_shift (Z.lxor x (Z.shiftl (byte_val b) (Z.of_nat k))).
Proof.
  unfold crc_byte. rewrite Nat.iter_add. f_equal.
  rewrite iter_crc_shift_lxor, iter_crc_shift_shiftl. reflexivity.
Qed.

Lemma byte_val_high_bits (b : byte) (i : Z) :
  8 <= i -> Z.testbit (byte_val b) i = false.
Proof.
  intro Hi. pose proof (byte_val_range b) as Hb.
  rewrite <- (Z.mod_small (byte_val b) (2 ^ 8)) by (change (2 ^ 8) with 256; lia).
  apply Z.mod_pow2_bits_high. lia.
Qed.

Lemma byte_cons_lxor (b : byte) (x : Z) :
  byte_val b + 256 * x = Z.lxor (byte_val b) (Z.shiftl x 8).
Proof.
  rewrite Z.shiftl_mul_pow2 by lia. change (2 ^ 8) with 256.
  rewrite (Z.mul_comm x 256). apply Z.add_nocarry_lxor.
  apply Z.bits_inj'; intros i Hi. rewrite Z.land_spec, Z.bits_0.
  destruct (Z.ltb_spec i 8).
  - rewrite (Z.mul_comm 256 x). change 256 with (2 ^ 8).
    rewrite Z.mul_pow2_bits_low by lia. apply andb_false_r.
  - rewrite byte_val_high_bits by lia. reflexivity.
Qed.

Lemma le32_decode_range (b0 b1 b2 b3 : byte) :
  0 <= le32_decode [b0; b1; b2; b3] < 2 ^ 32.
Proof.
  unfold le32_decode. cbn [fold_right].
  pose proof (byte_val_range b0). pose proof (byte_val_range b1).
  pose proof (byte_val_range b2). pose proof (byte_val_range b3). lia.
Qed.

(** Four bytes fed one after the other are one 32-bit word xored into the
    register, followed by 32 shifts. *)
Lemma crc_fold_word (r : Z) (b0 b1 b2 b3 : byte) :
  fold_left crc_byte [b0; b1; b2; b3] r =
  Nat.iter 32 crc_shift (Z.lxor r (le32_decode [b0; b1; b2; b3])).
Proof.
  cbn [fold_left].
  change r with (Nat.iter 0 crc_shift r) at 1.
  rewrite (crc_byte_after_shifts 0), (crc_byte_after_shifts 8),
    (crc_byte_after_shifts 16), (crc_byte_after_shifts 24).
  change (8 + 24)%nat with 32%nat. f_equal.
  unfold le32_decode. cbn [fold_right].
  rewrite !byte_cons_lxor.
  rewrite !Z.shiftl_lxor, !Z.shiftl_shiftl by lia.
  cbn [Z.of_nat Pos.of_succ_nat Pos.succ Z.add Pos.add].
  rewrite !Z.shiftl_0_l, !Z.shiftl_0_r, !Z.lxor_0_r.
  rewrite !Z.lxor_assoc. reflexivity.
Qed.

(** The residue check holds exactly when the four bytes behind the data
    are the CRC of the data, lowest byte first. *)
Lemma crc32_ieee_residue_iff (data w : list byte) :
  length w = 4%nat ->
  crc32_ieee (data ++ w) = residue <-> le32_decode w = crc32_ieee data.
Proof.
  intro Hw.
  destruct w as [|b0 [|b1 [|b2 [|b3 [|]]]]]; try discriminate Hw.
  unfold crc32_ieee, crc32_ieee_update.
  rewrite fold_left_app, crc_fold_word.
  set (r := fold_left crc_byte data (lnot32 0)).
  set (W := le32_decode [b0; b1; b2; b3]).
  assert (Hr : 0 <= r < 2 ^ 32)
    by (apply crc_fold_range; vm_compute; split; [discriminate|reflexivity]).
  assert (HW : 0 <= W < 2 ^ 32) by apply le32_decode_range.
  assert (HrW : 0 <= Z.lxor r W < 2 ^ 32) by (apply lxor_range; lia).
  assert (Hinv : forall a c, lnot32 a = c <-> a = lnot32 c).
  { intros a c. unfold lnot32. split; [intros <-|intros ->]; bitwise. }
  rewrite Hinv.
  change (lnot32 residue) with (Nat.iter 32 crc_shift 0xFFFFFFFF).
  split; intro H.
  - apply iter_crc_shift_inj in H; [|exact HrW|lia].
    unfold lnot32. rewrite <- H. bitwise.
  - f_equal. rewrite H. unfold lnot32. bitwise.
Qed.

End CRCWord.

Lemma firstn_plus {A : Type} (n m : nat) (l : list A) :
  firstn (n + m) l = firstn n l ++ firstn m (skipn n l).
Proof.
  revert l. induction n as [|n IH]; intros [|x l]; cbn [Nat.add firstn skipn app].
  - reflexivity.
  - reflexivity.
  - rewrite firstn_nil. reflexivity.
  - rewrite IH. reflexivity.
Qed.

(** X1: [ram_retained_validate] returns true exactly for the records whose
    checksum field, read as a little-endian 32-bit value, is the CRC of
    the bytes before it; any other content of the checksum field makes it
    return false.  (Records no longer than the end address of the RAM.) *)
Theorem validate_accepts_exactly_matching_checksum
    (p : platform) (fuel : nat) (mem : list byte) (ptr off : Z) :
  platform_ok p ->
  0 <= off <= Z.of_nat (length mem) - 4 ->
  Z.of_nat (length mem) <= SRAM_END p ->
  (Z.to_nat (off + 4) <= fuel)%nat ->
  exists v,
    ram_retained_validate p fuel mem ptr (Z.of_nat (length mem)) off 4 = Done v /\
    (valid v = true <->
     le32_decode (firstn 4 (skipn (Z.to_nat off) mem))
     = CRC.crc32_ieee (firstn (Z.to_nat off) mem)).
Proof.
  intros Hp Hoff HL Hf.
  destruct (ram_retained_validate_spec p Hp fuel mem ptr off Hoff HL Hf)
    as (ret & calls & Hr & Hv).
  eexists. split; [exact Hv|]. cbn [valid].
  rewrite Z.eqb_eq.
  replace (Z.to_nat (off + 4)) with (Z.to_nat off + 4)%nat by lia.
  rewrite firstn_plus. apply CRCWord.crc32_ieee_residue_iff.
  rewrite length_firstn, length_skipn. lia.
Qed.

Lemma validate_accepts_exactly_matching_checksum_witness :
  exists v,
    ram_retained_validate nrf52840 8
      [x05; x00; x00; x00; x2e; x2f; x9a; x16] 0x20000100
      (Z.of_nat (length [x05; x00; x00; x00; x2e; x2f; x9a; x16])) 4 4 = Done v /\
    (valid v = true <->
     le32_decode (firstn 4 (skipn (Z.to_nat 4)
                    [x05; x00; x00; x00; x2e; x2f; x9a; x16]))
     = CRC.crc32_ieee (firstn (Z.to_nat 4)
                         [x05; x00; x00; x00; x2e; x2f; x9a; x16])).
Proof.
  apply (validate_accepts_exactly_matching_checksum nrf52840 8%nat
           [x05; x00; x00; x00; x2e; x2f; x9a; x16] 0x20000100 4).
  - exact nrf52840_ok.
  - cbn. lia.
  - vm_compute. discriminate.
  - vm_compute. apply le_n.
Defined.

(** X2: [ram_retained_update] changes nothing when it is run a second
    time: the value bytes it reads are the ones it read before, so the
    same checksum is stored again. *)
Theorem update_twice_is_update_once (mem : list byte) (off : Z) :
  0 <= off <= Z.of_nat (length mem) - 4 ->
  (mem1 <- ram_retained_update mem off ;; ram_retained_update mem1 off)
  = ram_retained_update mem off.
Proof.
  intro Hoff. rewrite ram_retained_update_spec by exact Hoff. cbn [bind].
  set (crc := CRC.crc32_ieee (firstn (Z.to_nat off) mem)).
  set (mem1 := firstn (Z.to_nat off) mem ++ le32_bytes crc
               ++ skipn (Z.to_nat off + 4) mem).
  assert (Hlen : length mem1 = length mem)
    by (apply updated_length; [exact Hoff|reflexivity]).
  assert (Hl : length (firstn (Z.to_nat off) mem) = Z.to_nat off)
    by (rewrite length_firstn; lia).
  assert (Hfirst : firstn (Z.to_nat off) mem1 = firstn (Z.to_nat off) mem).
  { unfold mem1. rewrite firstn_app, Hl, Nat.sub_diag, firstn_O, app_nil_r.
    rewrite <- Hl at 1. apply firstn_all. }
  assert (Hskip : skipn (Z.to_nat off + 4) mem1 = skipn (Z.to_nat off + 4) mem).
  { unfold mem1.
    assert (Hl2 : length (firstn (Z.to_nat off) mem ++ le32_bytes crc)
                  = (Z.to_nat off + 4)%nat)
      by (rewrite length_app, Hl; reflexivity).
    rewrite app_assoc, skipn_app, Hl2, Nat.sub_diag.
    rewrite skipn_all2 by (rewrite Hl2; apply le_n). reflexivity. }
  rewrite ram_retained_update_spec by (rewrite Hlen; exact Hoff).
  rewrite Hfirst, Hskip. reflexivity.
Qed.

Lemma update_twice_is_update_once_witness :
  (mem1 <- ram_retained_update [x05; x00; x00; x00; xaa; xbb; xcc; xdd; xee] 4 ;;
   ram_retained_update mem1 4)
  = ram_retained_update [x05; x00; x00; x00; xaa; xbb; xcc; xdd; xee] 4.
Proof.
  apply (update_twice_is_update_once
           [x05; x00; x00; x00; xaa; xbb; xcc; xdd; xee] 4).
  cbn. lia.
Defined.

(** ** More on the section walk *)

Lemma ram_range_retain_loop_nonempty (p : platform) (addr_end : Z) (enable : bool) :
  forall (fuel : nat) (addr : Z) (calls : list hw_call),
    ram_range_retain_loop p fuel addr addr_end enable = Some calls ->
    exists c rest, calls = c :: rest.
Proof.
  intros [|fuel] addr calls H; [discriminate|].
  cbn [ram_range_retain_loop] in H.
  destruct (section_of_addr p addr) as [block mask].
  destruct (next_section_addr p addr <? addr_end).
  - destruct (ram_range_retain_loop p fuel _ _ _) as [cs|]; [|discriminate].
    injection H as <-. eauto.
  - injection H as <-. eauto.
Qed.

(** X3: as long as the length does not exceed the end address of the RAM,
    [ram_range_retain] either finds the range inside the RAM, returns 0
    and has made at least one call, or finds it empty or not inside the
    RAM, returns [-EINVAL] and has made no call at all. *)
Theorem ram_range_retain_error_or_effect
    (p : platform) (fuel : nat) (ptr len : Z) (enable : bool) :
  platform_ok p ->
  0 <= len <= SRAM_END p ->
  (Z.to_nat len <= fuel)%nat ->
  ((0 < len /\ SRAM_BEGIN p <= ptr /\ ptr + len <= SRAM_END p) /\
   exists c rest,
     ram_range_retain p fuel ptr len enable = Some (0, c :: rest))
  \/
  (~ (0 < len /\ SRAM_BEGIN p <= ptr /\ ptr + len <= SRAM_END p) /\
   ram_range_retain p fuel ptr len enable = Some (- EINVAL, [])).
Proof.
  intros Hp Hl Hf. pose proof (SRAM_bounds p Hp) as (Hb & He).
  destruct ((len =? 0) || (ptr <? SRAM_BEGIN p)
            || (wrap32 (SRAM_END p - len) <? ptr)) eqn:E.
  - right. split.
    + intro Hin. apply (bounds_check_in_range p Hp ptr len Hl) in Hin.
      congruence.
    + unfold ram_range_retain. rewrite E. reflexivity.
  - left. apply (bounds_check_in_range p Hp ptr len Hl) in E.
    split; [exact E|]. destruct E as (H1 & H2 & H3).
    rewrite ram_range_retain_in_range by assumption.
    destruct (ram_range_retain_loop_terminates p Hp enable (ptr + len) H3
                fuel ptr) as [calls Hc]; [lia|lia|].
    destruct (ram_range_retain_loop_nonempty p _ _ _ _ _ Hc) as (c & rest & ->).
    exists c, rest. rewrite Hc. reflexivity.
Qed.

Lemma ram_range_retain_error_or_effect_witness :
  ((0 < 32 /\ SRAM_BEGIN nrf52840 <= 0x2003FFF0 /\
    0x2003FFF0 + 32 <= SRAM_END nrf52840) /\
   exists c rest,
     ram_range_retain nrf52840 32 0x2003FFF0 32 true = Some (0, c :: rest))
  \/
  (~ (0 < 32 /\ SRAM_BEGIN nrf52840 <= 0x2003FFF0 /\
      0x2003FFF0 + 32 <= SRAM_END nrf52840) /\
   ram_range_retain nrf52840 32 0x2003FFF0 32 true = Some (- EINVAL, [])).
Proof.
  apply (ram_range_retain_error_or_effect nrf52840 32%nat 0x2003FFF0 32 true).
  - exact nrf52840_ok.
  - vm_compute. split; discriminate.
  - vm_compute. apply le_n.
Defined.

(** The mask of a call is one retention bit, whatever the address. *)
Lemma section_of_addr_one_bit (p : platform) (addr : Z) :
  POWER_RAM_POWERSET_S0RETENTION_On p = 1 ->
  0 <= POWER_RAM_POWERSET_S0RETENTION_Pos p <= 16 ->
  0 <= fst (section_of_addr p addr) < 256 /\
  exists s, 0 <= s < 16 /\
    snd (section_of_addr p addr)
    = 2 ^ (s + POWER_RAM_POWERSET_S0RETENTION_Pos p).
Proof.
  intros Hon Hpos.
  assert (Hmask : forall s, 0 <= s < 16 ->
            wrap32 (Z.shiftl (POWER_RAM_POWERSET_S0RETENTION_On p)
                      (s + POWER_RAM_POWERSET_S0RETENTION_Pos p))
            = 2 ^ (s + POWER_RAM_POWERSET_S0RETENTION_Pos p)).
  { intros s Hs. rewrite Hon, Z.shiftl_1_l. apply wrap32_small.
    split; [apply Z.pow_nonneg; lia|]. apply Z.pow_lt_mono_r; lia. }
  unfold section_of_addr, section_geometry.
  destruct (LARGE_SECTION_BEGIN p <=? addr); unfold_consts.
  - set (section := wrap32 (addr - LARGE_SECTION_BEGIN p) / 32768).
    assert (Hs : 0 <= section).
    { apply Z.div_pos; [|lia]. apply Z.mod_pos_bound. lia. }
    destruct (Z.leb_spec 16 section); cbn [fst snd].
    + split; [apply Z.mod_pos_bound; lia|].
      exists (section mod 16). split; [apply Z.mod_pos_bound; lia|].
      apply Hmask, Z.mod_pos_bound. lia.
    + split; [lia|]. exists section. split; [lia|]. apply Hmask. lia.
  - set (section := wrap32 (addr - SRAM_BEGIN p) / 4096).
    assert (Hs : 0 <= section).
    { apply Z.div_pos; [|lia]. apply Z.mod_pos_bound. lia. }
    destruct (Z.leb_spec 2 section); cbn [fst snd].
    + split; [apply Z.mod_pos_bound; lia|].
      exists (section mod 2).
      pose proof (Z.mod_pos_bound section 2 ltac:(lia)).
      split; [lia|]. apply Hmask. lia.
    + split; [lia|]. exists section. split; [lia|]. apply Hmask. lia.
Qed.

Lemma ram_range_retain_loop_Forall (p : platform) (addr_end : Z) (enable : bool)
    (P : Z * Z -> Prop) :
  (forall addr, P (section_of_addr p addr)) ->
  forall (fuel : nat) (addr : Z) (calls : list hw_call),
    ram_range_retain_loop p fuel addr addr_end enable = Some calls ->
    Forall (fun c => P (call_args c)) calls.
Proof.
  intros HP. induction fuel as [|fuel IH]; intros addr calls H; [discriminate|].
  cbn [ram_range_retain_loop] in H.
  pose proof (HP addr) as Ha.
  destruct (section_of_addr p addr) as [block mask].
  assert (Hc : P (call_args (rampower_call enable block mask)))
    by (destruct enable; exact Ha).
  destruct (next_section_addr p addr <? addr_end).
  - destruct (ram_range_retain_loop p fuel _ _ _) as [cs|] eqn:E; [|discriminate].
    injection H as <-. constructor; [exact Hc|]. eapply IH, E.
  - injection H as <-. constructor; [exact Hc|constructor].
Qed.

(** X4: with the retention field of the nRF52 register layout ([On] = 1
    at a position of at most 16), every call that [ram_range_retain]
    makes, for any pointer and length, carries a block index that fits a
    [uint8_t] and a mask with exactly one bit, one of the sixteen
    retention bits from [Pos] upwards; it never hands over a bit below
    [Pos], where the power bits are. *)
Theorem ram_range_retain_masks_one_retention_bit
    (p : platform) (fuel : nat) (ptr len : Z) (enable : bool)
    (ret : Z) (calls : list hw_call) :
  POWER_RAM_POWERSET_S0RETENTION_On p = 1 ->
  0 <= POWER_RAM_POWERSET_S0RETENTION_Pos p <= 16 ->
  ram_range_retain p fuel ptr len enable = Some (ret, calls) ->
  Forall (fun c =>
            0 <= fst (call_args c) < 256 /\
            exists s, 0 <= s < 16 /\
              snd (call_args c)
              = 2 ^ (s + POWER_RAM_POWERSET_S0RETENTION_Pos p)) calls.
Proof.
  intros Hon Hpos H. unfold ram_range_retain in H.
  destruct ((len =? 0) || (ptr <? SRAM_BEGIN p)
            || (wrap32 (SRAM_END p - len) <? ptr)).
  - injection H as <- <-. constructor.
  - destruct (ram_range_retain_loop p fuel ptr _ enable) as [cs|] eqn:E;
      [|discriminate].
    injection H as <- <-.
    apply (ram_range_retain_loop_Forall p (wrap32 (ptr + len)) enable
             (fun bm => 0 <= fst bm < 256 /\
                        exists s, 0 <= s < 16 /\
                          snd bm = 2 ^ (s + POWER_RAM_POWERSET_S0RETENTION_Pos p)))
      with (fuel := fuel) (addr := ptr); [|exact E].
    intro addr. apply section_of_addr_one_bit; assumption.
Qed.

Lemma ram_range_retain_masks_one_retention_bit_witness :
  Forall (fun c =>
            0 <= fst (call_args c) < 256 /\
            exists s, 0 <= s < 16 /\
              snd (call_args c)
              = 2 ^ (s + POWER_RAM_POWERSET_S0RETENTION_Pos nrf52840))
    [nrf_power_rampower_mask_off 7 0x20000; nrf_power_rampower_mask_off 8 0x10000].
Proof.
  apply (ram_range_retain_masks_one_retention_bit nrf52840 2%nat
           0x2000FFF0 32 false 0).
  - reflexivity.
  - vm_compute. split; discriminate.
  - vm_compute. reflexivity.
Defined.

(** One step from any 32-bit address ends on a section boundary below
    the last 4 KiB of the address space, or wraps around to it. *)
Lemma next_section_addr_below_top (p : platform) (addr : Z) :
  0 <= addr < 2 ^ 32 ->
  0 <= next_section_addr p addr <= 2 ^ 32 - 4096.
Proof.
  intro Ha. unfold next_section_addr, section_geometry.
  destruct (LARGE_SECTION_BEGIN p <=? addr); unfold_consts; unfold wrap32;
    change (2 ^ 32) with 4294967296 in *; Z.div_mod_to_equations; lia.
Qed.

Lemma ram_range_retain_loop_never_exits (p : platform) (addr_end : Z) (enable : bool) :
  2 ^ 32 - 4096 < addr_end ->
  forall (fuel : nat) (addr : Z),
    0 <= addr < 2 ^ 32 ->
    ram_range_retain_loop p fuel addr addr_end enable = None.
Proof.
  intros He. induction fuel as [|fuel IH]; intros addr Ha; [reflexivity|].
  cbn [ram_range_retain_loop].
  destruct (section_of_addr p addr) as [block mask].
  pose proof (next_section_addr_below_top p addr Ha) as Hn.
  replace (next_section_addr p addr <? addr_end) with true
    by (symmetry; apply Z.ltb_lt; lia).
  rewrite IH by lia. reflexivity.
Qed.

(** X5: a range that gets past the bounds check and whose end address,
    computed in 32 bits, lies in the last 4 KiB of the address space makes
    [ram_range_retain] loop for ever: every step lands on a section
    boundary or wraps to address 0, both below the end address, so no
    amount of fuel lets it return. *)
Theorem ram_range_retain_never_returns
    (p : platform) (fuel : nat) (ptr len : Z) (enable : bool) :
  0 <= ptr < 2 ^ 32 ->
  len <> 0 -> SRAM_BEGIN p <= ptr -> ptr <= wrap32 (SRAM_END p - len) ->
  2 ^ 32 - 4096 < wrap32 (ptr + len) ->
  ram_range_retain p fuel ptr len enable = None.
Proof.
  intros Hptr Hlen Hb Hcheck Hend. unfold ram_range_retain.
  replace ((len =? 0) || (ptr <? SRAM_BEGIN p)
           || (wrap32 (SRAM_END p - len) <? ptr)) with false.
  - rewrite ram_range_retain_loop_never_exits by assumption. reflexivity.
  - symmetry. rewrite !orb_false_iff, Z.eqb_neq, !Z.ltb_ge. auto.
Qed.

Lemma ram_range_retain_never_returns_witness :
  ram_range_retain nrf52840 1000 0x20000000 0xDFFFFFFF true = None.
Proof.
  apply (ram_range_retain_never_returns nrf52840 1000%nat
           0x20000000 0xDFFFFFFF true).
  - lia.
  - discriminate.
  - vm_compute. discriminate.
  - vm_compute. discriminate.
  - vm_compute. reflexivity.
Defined.

(** ** Which sections a range arms *)

Lemma Zseq_length (from : Z) (n : nat) : length (Layout.Zseq from n) = n.
Proof. revert from. induction n; intro; cbn; auto. Qed.

Lemma In_Zseq (k from : Z) (n : nat) :
  In k (Layout.Zseq from n) <-> from <= k < from + Z.of_nat n.
Proof.
  revert from. induction n as [|n IH]; intro from; cbn [Layout.Zseq In].
  - lia.
  - rewrite IH. lia.
Qed.

Lemma section_block_sorted (n : nat) :
  forall from, 0 <= from -> from + Z.of_nat n <= 32 ->
  StronglySorted Z.le (map Layout.section_block (Layout.Zseq from n)).
Proof.
  induction n as [|n IH]; intros from H0 Hn; cbn [Layout.Zseq map]; constructor.
  - apply IH; lia.
  - apply Forall_forall. intros b Hb. apply in_map_iff in Hb.
    destruct Hb as (k & <- & Hk). apply In_Zseq in Hk.
    assert (from <= k < 32) by lia. clear Hk Hn IH. layout_arith.
Qed.

Lemma section_block_small (k : Z) : 0 <= k < 32 -> 0 <= Layout.section_block k <= 8.
Proof. intro H. layout_arith. Qed.

Section Coverage.
Import Layout.

Variable p : platform.
Hypothesis Hp : platform_ok p.
Hypothesis Halign : platform_aligned p.

Lemma section_index_step (x y : Z) :
  SRAM_BEGIN p <= x <= y -> section_index p y - section_index p x <= y - x.
Proof. intro H. layout_arith. Qed.

Lemma sections_touched_spec (ptr len k : Z) :
  SRAM_BEGIN p <= ptr -> 0 < len ->
  In k (sections_touched p ptr len) <->
  section_index p ptr <= k <= section_index p (ptr + len - 1).
Proof.
  intros Hb Hl. unfold sections_touched. rewrite In_Zseq.
  pose proof (section_index_mono p ptr (ptr + len - 1) ltac:(lia)). lia.
Qed.

Lemma sections_touched_length (ptr len : Z) :
  SRAM_BEGIN p <= ptr -> 0 < len ->
  (length (sections_touched p ptr len) <= Z.to_nat len)%nat.
Proof.
  intros Hb Hl. unfold sections_touched. rewrite Zseq_length.
  pose proof (section_index_step ptr (ptr + len - 1) ltac:(lia)). lia.
Qed.

(** The calls of a range inside the RAM, read off the layout. *)
Lemma ram_range_retain_layout (fuel : nat) (ptr len : Z) (enable : bool) :
  0 < len -> SRAM_BEGIN p <= ptr -> ptr + len <= SRAM_END p ->
  (Z.to_nat len <= fuel)%nat ->
  ram_range_retain p fuel ptr len enable =
  Some (0, map (section_call p enable) (sections_touched p ptr len)).
Proof.
  intros Hl Hb He Hf.
  rewrite (ram_range_retain_in_range p Hp) by assumption.
  pose proof (sections_touched_length ptr len Hb Hl) as Hlen.
  unfold sections_touched in *. rewrite Zseq_length in Hlen.
  pose proof (section_index_mono p ptr (ptr + len - 1) ltac:(lia)) as Hm.
  set (n := Z.to_nat (section_index p (ptr + len - 1) - section_index p ptr)).
  replace (Z.to_nat (section_index p (ptr + len - 1)
                     - section_index p ptr + 1)) with (S n) in * by lia.
  rewrite (ram_range_retain_loop_layout p Hp Halign enable (ptr + len) He n);
    [reflexivity|lia|lia|lia].
Qed.

Lemma call_of_addr_layout (enable : bool) (addr : Z) :
  SRAM_BEGIN p <= addr < SRAM_END p ->
  rampower_call enable (fst (section_of_addr p addr))
                       (snd (section_of_addr p addr))
  = section_call p enable (section_index p addr).
Proof.
  intro Ha. rewrite (section_of_addr_layout p Hp) by exact Ha. reflexivity.
Qed.

(** Every section between the first and the last one of a range holds a
    byte of the range. *)
Lemma section_has_address (ptr len k : Z) :
  SRAM_BEGIN p <= ptr -> 0 < len ->
  section_index p ptr <= k <= section_index p (ptr + len - 1) ->
  exists addr, ptr <= addr < ptr + len /\ section_index p addr = k.
Proof.
  intros Hb Hl Hk.
  pose proof (section_index_nonneg p ptr Hb) as H0.
  pose proof (section_start_le p k (ptr + len - 1) ltac:(lia) ltac:(lia)) as Hend.
  pose proof (section_start_le p k ptr ltac:(lia) Hb) as Hbeg.
  destruct (Z.le_gt_cases (section_start p k) ptr) as [Hle|Hgt].
  - exists ptr. split; [lia|]. lia.
  - exists (section_start p k). split; [lia|].
    apply section_index_start. lia.
Qed.

Lemma ram_range_retain_calls_spec (fuel : nat) (ptr len : Z) (enable : bool) :
  0 < len -> SRAM_BEGIN p <= ptr -> ptr + len <= SRAM_END p ->
  (Z.to_nat len <= fuel)%nat ->
  exists calls,
    ram_range_retain p fuel ptr len enable = Some (0, calls) /\
    forall c,
      In c calls <->
      exists addr, ptr <= addr < ptr + len /\
        c = rampower_call enable (fst (section_of_addr p addr))
                                 (snd (section_of_addr p addr)).
Proof.
  intros Hl Hb He Hf. eexists. split.
  - apply ram_range_retain_layout; assumption.
  - intro c. rewrite in_map_iff. split.
    + intros (k & <- & Hk). apply sections_touched_spec in Hk; [|lia|lia].
      destruct (section_has_address ptr len k Hb Hl Hk) as (addr & Ha & <-).
      exists addr. split; [exact Ha|].
      symmetry. apply call_of_addr_layout. lia.
    + intros (addr & Ha & ->). exists (section_index p addr). split.
      * symmetry. apply call_of_addr_layout. lia.
      * apply sections_touched_spec; [lia|lia|].
        pose proof (section_index_mono p ptr addr ltac:(lia)).
        pose proof (section_index_mono p addr (ptr + len - 1) ltac:(lia)). lia.
Qed.

Lemma sections_touched_same_end (ptr len len' : Z) :
  SRAM_BEGIN p <= ptr -> 0 < len <= len' -> ptr + len' <= SRAM_END p ->
  ptr + len' <= next_section_addr p (ptr + len - 1) ->
  sections_touched p ptr len' = sections_touched p ptr len.
Proof.
  intros Hb Hl He Hn.
  rewrite (next_section_addr_layout p Hp Halign) in Hn by lia.
  pose proof (section_index_nonneg p (ptr + len - 1) ltac:(lia)) as H0.
  pose proof (section_start_le p (section_index p (ptr + len - 1) + 1)
                (ptr + len' - 1) ltac:(lia) ltac:(lia)) as Hg.
  pose proof (section_index_mono p (ptr + len - 1) (ptr + len' - 1) ltac:(lia)).
  unfold sections_touched. do 2 f_equal. lia.
Qed.

Lemma section_index_single_large_block (addr : Z) :
  dt_sram0_size p <= SMALL_SECTION_SPAN + 16 * LARGE_SECTION_SIZE ->
  SRAM_BEGIN p <= addr < SRAM_END p ->
  0 <= section_index p addr < 32.
Proof.
  intros Hsz Ha. rewrite (SRAM_END_eq p Hp) in Ha. layout_arith.
Qed.

End Coverage.

(** X6: for a range inside the RAM, the calls that [ram_range_retain]
    makes are exactly the calls of the sections that hold a byte of the
    range: the call computed for any byte address of the range is among
    them, so stepping from section to section skips no byte, and every
    call made is the call computed for some byte address of the range, so
    no section outside the range is touched. *)
Theorem ram_range_retain_covers_exactly_the_range
    (p : platform) (fuel : nat) (ptr len : Z) (enable : bool) :
  platform_ok p -> platform_aligned p ->
  0 < len -> SRAM_BEGIN p <= ptr -> ptr + len <= SRAM_END p ->
  (Z.to_nat len <= fuel)%nat ->
  exists calls,
    ram_range_retain p fuel ptr len enable = Some (0, calls) /\
    forall c,
      In c calls <->
      exists addr, ptr <= addr < ptr + len /\
        c = rampower_call enable (fst (section_of_addr p addr))
                                 (snd (section_of_addr p addr)).
Proof.
  intros Hp Hal Hl Hb He Hf.
  exact (ram_range_retain_calls_spec p Hp Hal fuel ptr len enable Hl Hb He Hf).
Qed.

Lemma ram_range_retain_covers_exactly_the_range_witness :
  exists calls,
    ram_range_retain nrf52840 4097 0x2000F000 4097 true = Some (0, calls) /\
    forall c,
      In c calls <->
      exists addr, 0x2000F000 <= addr < 0x2000F000 + 4097 /\
        c = rampower_call true (fst (section_of_addr nrf52840 addr))
                               (snd (section_of_addr nrf52840 addr)).
Proof.
  apply (ram_range_retain_covers_exactly_the_range nrf52840 4097%nat
           0x2000F000 4097 true).
  - exact nrf52840_ok.
  - exact nrf52840_aligned.
  - lia.
  - vm_compute. discriminate.
  - vm_compute. discriminate.
  - vm_compute. apply le_n.
Defined.

(** X7: arming is monotone in the range: when one range inside the RAM
    contains another, every call made for the inner range is also made for
    the outer one. *)
Theorem ram_range_retain_subrange
    (p : platform) (fuel : nat) (ptr len ptr' len' : Z) (enable : bool) :
  platform_ok p -> platform_aligned p ->
  SRAM_BEGIN p <= ptr -> ptr + len <= SRAM_END p ->
  ptr <= ptr' -> 0 < len' -> ptr' + len' <= ptr + len ->
  (Z.to_nat len <= fuel)%nat ->
  exists calls calls',
    ram_range_retain p fuel ptr len enable = Some (0, calls) /\
    ram_range_retain p fuel ptr' len' enable = Some (0, calls') /\
    incl calls' calls.
Proof.
  intros Hp Hal Hb He Hsub Hl' Hsub' Hf.
  destruct (ram_range_retain_calls_spec p Hp Hal fuel ptr len enable)
    as (calls & Hc & Hin); [lia|lia|lia|lia|].
  destruct (ram_range_retain_calls_spec p Hp Hal fuel ptr' len' enable)
    as (calls' & Hc' & Hin'); [lia|lia|lia|lia|].
  exists calls, calls'. split; [exact Hc|]. split; [exact Hc'|].
  intros c Hcin. apply Hin' in Hcin. destruct Hcin as (addr & Ha & ->).
  apply Hin. exists addr. split; [lia|reflexivity].
Qed.

Lemma ram_range_retain_subrange_witness :
  exists calls calls',
    ram_range_retain nrf52840 4097 0x2000F000 4097 true = Some (0, calls) /\
    ram_range_retain nrf52840 4097 0x2000FFF0 17 true = Some (0, calls') /\
    incl calls' calls.
Proof.
  apply (ram_range_retain_subrange nrf52840 4097%nat
           0x2000F000 4097 0x2000FFF0 17 true).
  - exact nrf52840_ok.
  - exact nrf52840_aligned.
  - vm_compute. discriminate.
  - vm_compute. discriminate.
  - lia.
  - lia.
  - lia.
  - vm_compute. apply le_n.
Defined.

(** X8: when a record inside the RAM does not reach past the end of the
    section that holds the last byte of its checksum,
    [ram_retained_validate] makes exactly the calls of [ram_range_retain]
    on the record's full range: arming only the checked bytes then arms
    the whole record. *)
Theorem validate_arms_whole_record_within_section
    (p : platform) (fuel : nat) (mem : list byte) (ptr off : Z) :
  platform_ok p -> platform_aligned p ->
  0 <= off <= Z.of_nat (length mem) - 4 ->
  SRAM_BEGIN p <= ptr -> ptr + Z.of_nat (length mem) <= SRAM_END p ->
  ptr + Z.of_nat (length mem) <= next_section_addr p (ptr + off + 3) ->
  (Z.to_nat (Z.of_nat (length mem)) <= fuel)%nat ->
  exists v,
    ram_retained_validate p fuel mem ptr (Z.of_nat (length mem)) off 4 = Done v /\
    ram_range_retain p fuel ptr (Z.of_nat (length mem)) true
    = Some (0, retention_calls v).
Proof.
  intros Hp Hal Hoff Hb He Hn Hf.
  pose proof (SRAM_bounds p Hp) as (Hb' & He').
  destruct (ram_retained_validate_spec p Hp fuel mem ptr off Hoff)
    as (ret & calls & Hr & Hv); [lia|lia|].
  eexists. split; [exact Hv|]. cbn [retention_calls].
  rewrite (ram_range_retain_layout p Hp Hal) in Hr by lia.
  rewrite (ram_range_retain_layout p Hp Hal) by lia.
  injection Hr as _ <-.
  rewrite (sections_touched_same_end p Hp Hal ptr (off + 4)); try lia.
  - reflexivity.
  - replace (ptr + (off + 4) - 1) with (ptr + off + 3) by lia. exact Hn.
Qed.

Lemma validate_arms_whole_record_within_section_witness :
  exists v,
    ram_retained_validate nrf52840 16 (repeat x00 16) 0x20000FF0
      (Z.of_nat (length (repeat x00 16))) 8 4 = Done v /\
    ram_range_retain nrf52840 16 0x20000FF0
      (Z.of_nat (length (repeat x00 16))) true
    = Some (0, retention_calls v).
Proof.
  apply (validate_arms_whole_record_within_section nrf52840 16%nat
           (repeat x00 16) 0x20000FF0 8).
  - exact nrf52840_ok.
  - exact nrf52840_aligned.
  - cbn. lia.
  - vm_compute. discriminate.
  - vm_compute. discriminate.
  - vm_compute. discriminate.
  - vm_compute. apply le_n.
Defined.

(** X9: on a RAM with at most sixteen large sections (one large block, as
    on every nRF52), the calls for a range inside the RAM come in block
    order: the block indices never decrease along the calls, and none
    exceeds 8. *)
Theorem ram_range_retain_calls_in_block_order
    (p : platform) (fuel : nat) (ptr len : Z) (enable : bool) :
  platform_ok p -> platform_aligned p ->
  dt_sram0_size p <= SMALL_SECTION_SPAN + 16 * LARGE_SECTION_SIZE ->
  0 < len -> SRAM_BEGIN p <= ptr -> ptr + len <= SRAM_END p ->
  (Z.to_nat len <= fuel)%nat ->
  exists calls,
    ram_range_retain p fuel ptr len enable = Some (0, calls) /\
    StronglySorted Z.le (map (fun c => fst (call_args c)) calls) /\
    Forall (fun c => 0 <= fst (call_args c) <= 8) calls.
Proof.
  intros Hp Hal Hsz Hl Hb He Hf.
  eexists. split; [apply (ram_range_retain_layout p Hp Hal); assumption|].
  pose proof (section_index_single_large_block p Hp ptr Hsz ltac:(lia)) as H1.
  pose proof (section_index_single_large_block p Hp (ptr + len - 1) Hsz
                ltac:(lia)) as H2.
  pose proof (section_index_mono p ptr (ptr + len - 1) ltac:(lia)) as Hm.
  assert (Hblock : forall k, fst (call_args (Layout.section_call p enable k))
                             = Layout.section_block k)
    by (intro k; unfold Layout.section_call; destruct enable; reflexivity).
  split.
  - rewrite map_map. rewrite (map_ext _ Layout.section_block) by exact Hblock.
    unfold Layout.sections_touched. apply section_block_sorted; lia.
  - apply Forall_forall. intros c Hc. apply in_map_iff in Hc.
    destruct Hc as (k & <- & Hk). rewrite Hblock.
    apply (sections_touched_spec p) in Hk; [|lia|lia].
    apply section_block_small. lia.
Qed.

Lemma ram_range_retain_calls_in_block_order_witness :
  exists calls,
    ram_range_retain nrf52840 4097 0x2000F000 4097 true = Some (0, calls) /\
    StronglySorted Z.le (map (fun c => fst (call_args c)) calls) /\
    Forall (fun c => 0 <= fst (call_args c) <= 8) calls.
Proof.
  apply (ram_range_retain_calls_in_block_order nrf52840 4097%nat
           0x2000F000 4097 true).
  - exact nrf52840_ok.
  - exact nrf52840_aligned.
  - vm_compute. discriminate.
  - lia.
  - vm_compute. discriminate.
  - vm_compute. discriminate.
  - vm_compute. apply le_n.
Defined.

(** ** The life of a retained variable *)

Section Rounds.

Variable l : rr_layout.
Hypothesis Hl : rr_layout_ok l.

Lemma write_rr_var_length (f : list byte -> list byte) (mem : list byte) :
  (forall v, length (f v) = length v) ->
  Z.of_nat (length mem) = rr_sizeof l ->
  length (write_rr_var f l mem) = length mem.
Proof.
  intros Hf Hm. destruct Hl as (H0 & H1). unfold write_rr_var.
  rewrite length_app, Hf, length_firstn, length_skipn. lia.
Qed.

Lemma write_rr_var_value (f : list byte -> list byte) (mem : list byte) :
  (forall v, length (f v) = length v) ->
  Z.of_nat (length mem) = rr_sizeof l ->
  firstn (Z.to_nat (rr_crc_offset l)) (write_rr_var f l mem)
  = f (firstn (Z.to_nat (rr_crc_offset l)) mem).
Proof.
  intros Hf Hm. destruct Hl as (H0 & H1). unfold write_rr_var.
  assert (Hlen : length (f (firstn (Z.to_nat (rr_crc_offset l)) mem))
                 = Z.to_nat (rr_crc_offset l))
    by (rewrite Hf, length_firstn; lia).
  rewrite firstn_app, Hlen, Nat.sub_diag, firstn_O, app_nil_r.
  rewrite <- Hlen at 1. apply firstn_all.
Qed.

(** After [RR_Var_Ram_Ret] the record has its length, its value bytes,
    and passes the residue check. *)
Lemma RR_Var_Ram_Ret_spec (mem : list byte) :
  Z.of_nat (length mem) = rr_sizeof l ->
  exists mem',
    RR_Var_Ram_Ret l mem = Done mem' /\
    length mem' = length mem /\
    firstn (Z.to_nat (rr_crc_offset l)) mem'
    = firstn (Z.to_nat (rr_crc_offset l)) mem /\
    CRC.crc32_ieee (firstn (Z.to_nat (rr_crc_offset l + 4)) mem') = residue.
Proof.
  intro Hm. destruct Hl as (H0 & H1).
  assert (Hoff : 0 <= rr_crc_offset l <= Z.of_nat (length mem) - 4) by lia.
  eexists. split.
  { unfold RR_Var_Ram_Ret, RR_Var_Ram_Retain.
    apply ram_retained_update_spec, Hoff. }
  assert (Hlen : length (firstn (Z.to_nat (rr_crc_offset l)) mem)
                 = Z.to_nat (rr_crc_offset l))
    by (rewrite length_firstn; lia).
  split; [apply updated_length; [exact Hoff|reflexivity]|].
  split.
  - rewrite firstn_app, Hlen, Nat.sub_diag, firstn_O, app_nil_r.
    rewrite <- Hlen at 1. apply firstn_all.
  - rewrite updated_checked_bytes by (exact Hoff || reflexivity).
    apply CRCFacts.crc32_ieee_residue.
Qed.

Lemma retain_rounds_spec (fs : list (list byte -> list byte)) :
  Forall (fun f => forall v, length (f v) = length v) fs ->
  forall mem,
    Z.of_nat (length mem) = rr_sizeof l ->
    exists mem',
      retain_rounds l fs mem = Done mem' /\
      length mem' = length mem /\
      firstn (Z.to_nat (rr_crc_offset l)) mem'
      = fold_left (fun v f => f v) fs
          (firstn (Z.to_nat (rr_crc_offset l)) mem) /\
      (fs <> [] ->
       CRC.crc32_ieee (firstn (Z.to_nat (rr_crc_offset l + 4)) mem') = residue).
Proof.
  induction 1 as [|f fs Hf Hfs IH]; intros mem Hm.
  - exists mem. cbn. repeat split; congruence.
  - cbn [retain_rounds fold_left].
    destruct (RR_Var_Ram_Ret_spec (write_rr_var f l mem))
      as (m1 & Hr & Hlen1 & Hval1 & Hcrc1).
    { rewrite write_rr_var_length by assumption. exact Hm. }
    rewrite write_rr_var_length in Hlen1 by assumption.
    rewrite write_rr_var_value in Hval1 by assumption.
    rewrite Hr. cbn [bind].
    destruct (IH m1) as (m2 & Hr2 & Hlen2 & Hval2 & Hcrc2); [lia|].
    exists m2. split; [exact Hr2|]. split; [lia|].
    split; [rewrite Hval2, Hval1; reflexivity|].
    intros _. destruct fs as [|g fs'].
    + cbn in Hr2. injection Hr2 as <-. exact Hcrc1.
    + apply Hcrc2. discriminate.
Qed.

End Rounds.



(** X11: [ram_retained_validate] drops the result of [ram_range_retain].
    For a record whose checked bytes do not lie inside the RAM it still
    returns the verdict of the residue check, and resets the record when
    the check fails, while not a single retention call is made: the
    caller is not told that nothing was armed. *)
Theorem validate_outside_ram_arms_nothing
    (p : platform) (fuel : nat) (mem : list byte) (ptr off : Z) :
  platform_ok p ->
  0 <= off <= Z.of_nat (length mem) - 4 ->
  Z.of_nat (length mem) <= SRAM_END p ->
  ptr < SRAM_BEGIN p \/ SRAM_END p < ptr + (off + 4) ->
  ram_retained_validate p fuel mem ptr (Z.of_nat (length mem)) off 4 =
  let ok := CRC.crc32_ieee (firstn (Z.to_nat (off + 4)) mem) =? residue in
  Done {| valid := ok;
          record_bytes := if ok then mem else repeat x00 (length mem);
          retention_calls := [] |}.
Proof.
  intros Hp Hoff HL Hout. pose proof (SRAM_bounds p Hp) as (Hb & He).
  unfold LARGE_SECTION_SIZE in He.
  assert (Hr : ram_range_retain p fuel ptr (off + 4) true = Some (- EINVAL, [])).
  { apply ram_range_retain_rejects; [exact Hp|]. right.
    destruct Hout as [H|H]; [left; exact H|right; lia]. }
  unfold ram_retained_validate.
  rewrite wrap32_small by lia.
  rewrite read_bytes_in_range by lia. cbn [bind]. cbv zeta.
  destruct (CRC.crc32_ieee (firstn (Z.to_nat (off + 4)) mem) =? residue);
    cbn [negb]; [|rewrite memset0_whole]; cbn [bind]; rewrite Hr; reflexivity.
Qed.

Lemma validate_outside_ram_arms_nothing_witness :
  ram_retained_validate nrf52840 0
    [x05; x00; x00; x00; x2e; x2f; x9a; x16] 0x10000000
    (Z.of_nat (length [x05; x00; x00; x00; x2e; x2f; x9a; x16])) 4 4 =
  let ok := CRC.crc32_ieee (firstn (Z.to_nat (4 + 4))
                              [x05; x00; x00; x00; x2e; x2f; x9a; x16])
            =? residue in
  Done {| valid := ok;
          record_bytes :=
            if ok then [x05; x00; x00; x00; x2e; x2f; x9a; x16]
            else repeat x00 (length [x05; x00; x00; x00; x2e; x2f; x9a; x16]);
          retention_calls := [] |}.
Proof.
  apply (validate_outside_ram_arms_nothing nrf52840 0%nat
           [x05; x00; x00; x00; x2e; x2f; x9a; x16] 0x10000000 4).
  - exact nrf52840_ok.
  - cbn. lia.
  - vm_compute. discriminate.
  - left. vm_compute. reflexivity.
Defined.

Lemma section_index_span (p : platform) (x y : Z) :
  SRAM_BEGIN p <= x <= y ->
  Layout.section_index p y - Layout.section_index p x
  <= (y - x) / SMALL_SECTION_SIZE + 1.
Proof. intro H. layout_arith. Qed.

(** X12: for a range of [len] bytes inside the RAM, [ram_range_retain]
    makes at most [(len - 1) / 4096 + 2] calls into the peripheral. *)
Theorem ram_range_retain_call_count
    (p : platform) (fuel : nat) (ptr len : Z) (enable : bool) :
  platform_ok p -> platform_aligned p ->
  0 < len -> SRAM_BEGIN p <= ptr -> ptr + len <= SRAM_END p ->
  (Z.to_nat len <= fuel)%nat ->
  exists calls,
    ram_range_retain p fuel ptr len enable = Some (0, calls) /\
    1 <= Z.of_nat (length calls) <= (len - 1) / SMALL_SECTION_SIZE + 2.
Proof.
  intros Hp Hal Hl Hb He Hf.
  eexists. split; [apply (ram_range_retain_layout p Hp Hal); assumption|].
  rewrite length_map. unfold Layout.sections_touched. rewrite Zseq_length.
  pose proof (section_index_mono p ptr (ptr + len - 1) ltac:(lia)).
  pose proof (section_index_span p ptr (ptr + len - 1) ltac:(lia)) as Hs.
  replace (ptr + len - 1 - ptr) with (len - 1) in Hs by lia. lia.
Qed.

Lemma ram_range_retain_call_count_witness :
  exists calls,
    ram_range_retain nrf52840 2 0x20000FFF 2 true = Some (0, calls) /\
    1 <= Z.of_nat (length calls) <= (2 - 1) / SMALL_SECTION_SIZE + 2.
Proof.
  apply (ram_range_retain_call_count nrf52840 2%nat 0x20000FFF 2 true).
  - exact nrf52840_ok.
  - exact nrf52840_aligned.
  - lia.
  - vm_compute. discriminate.
  - vm_compute. discriminate.
  - vm_compute. apply le_n.
Defined.
